(** * Archipelago traffic analysis: a shallow embedding of [traffic.py]

    The development follows the Python module top to bottom:
    - [Py]: the few [str] built-ins the parser relies on ([strip], [split],
      [int]) and the insertion-ordered [dict];
    - [Exc]: a state-and-exception monad for [try]/[except ValueError];
    - the [City] objects, kept in an object store indexed by allocation
      number, so that object identity ([==], [in] on lists of cities) is
      equality of indices;
    - [build_graph], the depth-first helpers and [min_highways].

    Characters are Unicode code points below 256.  A reference that is not
    in the store stands for no object, and an operation on it leaves the
    store as it is; [build_graph] hands out references of the store only.
    The two [while] loops take a bound on their number of iterations and
    answer [None] when it is reached; the results below show that the
    size of the store is bound enough. *)

From Stdlib Require Import ZArith String Ascii.
From stdpp Require Import base option list gmap strings.

Local Open Scope string_scope.
Local Open Scope Z_scope.
Local Open Scope list_scope.

(** ** Python built-ins on [str] *)

Module Py.

(** [str.isspace] restricted to code points below 256. *)
Definition is_space (c : ascii) : bool :=
  let n := N_of_ascii c in
  ((9 <=? n) && (n <=? 13) || (28 <=? n) && (n <=? 31)
   || (n =? 32) || (n =? 133) || (n =? 160))%N.

(** [s.lstrip()] *)
Fixpoint lstrip (s : string) : string :=
  match s with
  | EmptyString => EmptyString
  | String c s' => if is_space c then lstrip s' else s
  end.

(** [s.rstrip()] *)
Fixpoint rstrip (s : string) : string :=
  match s with
  | EmptyString => EmptyString
  | String c s' =>
      match rstrip s' with
      | EmptyString => if is_space c then EmptyString else String c EmptyString
      | r => String c r
      end
  end.

(** [s.strip()] *)
Definition strip (s : string) : string := rstrip (lstrip s).

(** Puts a character in front of the first part. *)
Definition cons_head (a : ascii) (parts : list string) : list string :=
  match parts with
  | [] => [String a EmptyString]
  | p :: ps => String a p :: ps
  end.

(** [split_from sep skip s]: the parts of [s] around the non-overlapping
    occurrences of [sep], scanning left to right; [skip] counts the
    characters of an occurrence that are still to be consumed. *)
Fixpoint split_from (sep : string) (skip : nat) (s : string) : list string :=
  match s with
  | EmptyString => [EmptyString]
  | String a s' =>
      match skip with
      | S k => split_from sep k s'
      | O =>
          if String.prefix sep s
          then EmptyString :: split_from sep (String.length sep - 1) s'
          else cons_head a (split_from sep 0 s')
      end
  end.

(** [s.split(sep)] for a non-empty separator. *)
Definition split (sep s : string) : list string := split_from sep 0 s.

(** [sep.join(parts)] *)
Fixpoint join (sep : string) (parts : list string) : string :=
  match parts with
  | [] => EmptyString
  | [p] => p
  | p :: ps => p +:+ sep +:+ join sep ps
  end.

(** The decimal digits below code point 256: ['0'] to ['9']. *)
Definition is_digit (c : ascii) : bool :=
  let n := N_of_ascii c in ((48 <=? n) && (n <=? 57))%N.

(** The value of a decimal digit. *)
Definition digit_value (c : ascii) : Z := Z.of_N (N_of_ascii c) - 48.

(** The digits of a decimal literal: single underscores are allowed
    between digits only.  Returns the value and the number of digits. *)
Fixpoint digits (after_digit : bool) (acc : Z) (n : nat) (s : string)
  : option (Z * nat) :=
  match s with
  | EmptyString => if after_digit then Some (acc, n) else None
  | String c s' =>
      if is_digit c then digits true (10 * acc + digit_value c) (S n) s'
      else if Ascii.eqb c "_"
           then (if after_digit then digits false acc n s' else None)
           else None
  end.

(** Default of [sys.int_max_str_digits]: longer literals are refused with
    [ValueError]. *)
Definition int_max_str_digits : nat := 4300.

(** An optional sign, then the digits. *)
Definition signed_digits (s : string) : option (Z * nat) :=
  match s with
  | String "+" s' => digits false 0 0%nat s'
  | String "-" s' =>
      match digits false 0 0%nat s' with
      | Some (v, n) => Some (- v, n)
      | None => None
      end
  | _ => digits false 0 0%nat s
  end.

(** [int(s)] in base ten: surrounding whitespace is ignored; [None] stands
    for [ValueError]. *)
Definition int (s : string) : option Z :=
  match signed_digits (strip s) with
  | Some (v, n) => if decide (n ≤ int_max_str_digits)%nat then Some v else None
  | None => None
  end.

(** An insertion-ordered [dict] from [str] to object references. *)
Abbreviation dict := (list (string * nat)).

(** [d[k] = v]: an existing key keeps its position. *)
Fixpoint setitem (k : string) (v : nat) (d : dict) : dict :=
  match d with
  | [] => [(k, v)]
  | (k', v') :: d' =>
      if decide (k' = k) then (k, v) :: d' else (k', v') :: setitem k v d'
  end.

(** [d.get(k)] *)
Fixpoint get (k : string) (d : dict) : option nat :=
  match d with
  | [] => None
  | (k', v') :: d' => if decide (k' = k) then Some v' else get k d'
  end.

(** [k in d] *)
Definition contains (k : string) (d : dict) : bool :=
  match get k d with Some _ => true | None => false end.

(** [list(d.values())] *)
Definition values (d : dict) : list nat := d.*2.

End Py.

(** ** Exceptions and state *)

Module Exc.

(** The exceptions the module can meet. *)
Inductive exn : Type := ValueError | KeyError.

(** A value, or the exception raised instead. *)
Inductive result (A : Type) : Type :=
| Ok (a : A)
| Raise (e : exn).
Arguments Ok {A} a.
Arguments Raise {A} e.

(** A computation over a mutable state [S] that may raise; the state
    reached when the exception is raised is kept. *)
Definition M (S A : Type) : Type := S → S * result A.

(** The computation that returns [a]. *)
Definition ret {S A} (a : A) : M S A := λ s, (s, Ok a).

(** Sequencing: an exception of [m] skips [k]. *)
Definition bind {S A B} (m : M S A) (k : A → M S B) : M S B :=
  λ s, match m s with
       | (s', Ok a) => k a s'
       | (s', Raise e) => (s', Raise e)
       end.

(** [raise e] *)
Definition raise {S A} (e : exn) : M S A := λ s, (s, Raise e).

(** Reading the state. *)
Definition get_state {S} : M S S := λ s, (s, Ok s).

(** Updating the state. *)
Definition modify {S} (f : S → S) : M S unit := λ s, (f s, Ok tt).

(** [try: body except ValueError: handler] *)
Definition try_except_ValueError {S A} (body handler : M S A) : M S A :=
  λ s, match body s with
       | (s', Raise ValueError) => handler s'
       | r => r
       end.

(** [for x in xs: body x] *)
Fixpoint for_each {S A} (xs : list A) (body : A → M S unit) : M S unit :=
  match xs with
  | [] => ret tt
  | x :: xs' => bind (body x) (λ _, for_each xs' body)
  end.

(** A built-in that raises [ValueError] where the pure function fails. *)
Definition or_ValueError {S A} (o : option A) : M S A :=
  match o with Some a => ret a | None => raise ValueError end.

(** [d[k]]: raises [KeyError] where the key is missing. *)
Definition or_KeyError {S A} (o : option A) : M S A :=
  match o with Some a => ret a | None => raise KeyError end.

End Exc.

Import Exc.

#[global] Instance M_ret {S} : MRet (M S) := @Exc.ret S.
#[global] Instance M_bind {S} : MBind (M S) := λ A B k m, Exc.bind m k.

(** ** Cities *)

(** The fields of a [City]; [connections] holds references. *)
Record City : Type := mkCity {
  name : string;
  population : Z;
  connections : list nat;
  visited : bool
}.

(** [City(name, population)] *)
Definition City_init (n : string) (p : Z) : City :=
  {| name := n; population := p; connections := []; visited := false |}.

(** The object store: the city with reference [i] is [h !! i]. *)
Abbreviation heap := (list City).

(** [c.connections = l] *)
Definition set_connections (l : list nat) (c : City) : City :=
  {| name := name c; population := population c;
     connections := l; visited := visited c |}.

(** [c.visited = b] *)
Definition set_visited (b : bool) (c : City) : City :=
  {| name := name c; population := population c;
     connections := connections c; visited := b |}.

(** [self.add_connection(city_obj)] *)
Definition add_connection (self city_obj : nat) (h : heap) : heap :=
  match h !! self with
  | Some c =>
      if decide (city_obj ∈ connections c) then h
      else <[self := set_connections (connections c ++ [city_obj]) c]> h
  | None => h
  end.

(** [self.reset_visited()] *)
Definition reset_visited (self : nat) (h : heap) : heap :=
  match h !! self with
  | Some c => <[self := set_visited false c]> h
  | None => h
  end.

(** ** Building the graph *)

(** The separator of both record formats. *)
Definition separator : string := " : ".

(** The line feed. *)
Definition newline : string := String "010" EmptyString.

(** [a, b = parts] *)
Definition unpack2 {S} (parts : list string) : M S (string * string) :=
  match parts with
  | [a; b] => ret (a, b)
  | _ => raise ValueError
  end.

(** What [build_graph] works on: the object store and its local
    [city_map]. *)
Record build_state : Type := mkState {
  objects : heap;
  city_map : Py.dict
}.

(** [city_map[name] = City(name, population)] *)
Definition register_city (n : string) (p : Z) (st : build_state) : build_state :=
  {| objects := objects st ++ [City_init n p];
     city_map := Py.setitem n (List.length (objects st)) (city_map st) |}.

(** The body of the loop over the population lines. *)
Definition population_line (line : string) : M build_state unit :=
  let line := Py.strip line in
  if decide (line = EmptyString) then ret tt
  else
    try_except_ValueError
      ('(n, pop_str) ← unpack2 (Py.split separator line);
       let n := Py.strip n in
       p ← or_ValueError (Py.int (Py.strip pop_str));
       modify (register_city n p))
      (ret tt).

(** [city1.add_connection(city2); city2.add_connection(city1)] *)
Definition connect (city1 city2 : nat) (st : build_state) : build_state :=
  {| objects := add_connection city2 city1 (add_connection city1 city2 (objects st));
     city_map := city_map st |}.

(** The body of the loop over the road lines. *)
Definition road_line (line : string) : M build_state unit :=
  let line := Py.strip line in
  if decide (line = EmptyString) then ret tt
  else
    try_except_ValueError
      ('(city1_name, city2_name) ← unpack2 (Py.split separator line);
       let city1_name := Py.strip city1_name in
       let city2_name := Py.strip city2_name in
       st ← get_state;
       if Py.contains city1_name (city_map st) && Py.contains city2_name (city_map st)
       then
         city1 ← or_KeyError (Py.get city1_name (city_map st));
         city2 ← or_KeyError (Py.get city2_name (city_map st));
         modify (connect city1 city2)
       else ret tt)
      (ret tt).

(** The two loops and the [return]. *)
Definition build_graph_body (pop_data road_data : string) : M build_state (list nat) :=
  for_each (Py.split newline pop_data) population_line;;
  for_each (Py.split newline road_data) road_line;;
  st ← get_state;
  ret (Py.values (city_map st)).

(** No object yet, and [city_map = {}]. *)
Definition empty_state : build_state := {| objects := []; city_map := [] |}.

(** [build_graph(pop_data, road_data)]: the store it leaves and the list of
    references it returns, or the exception that escapes. *)
Definition build_graph (pop_data road_data : string) : result (heap * list nat) :=
  match build_graph_body pop_data road_data empty_state with
  | (st, Ok nodes) => Ok (objects st, nodes)
  | (_, Raise e) => Raise e
  end.

(** ** Traversals *)

(** [city.connections] for the object behind a reference. *)
Definition conns (h : heap) (i : nat) : list nat :=
  match h !! i with
  | Some c => connections c
  | None => []
  end.

(** [for city in city_objects: city.reset_visited()] *)
Definition reset_all (city_objects : list nat) (h : heap) : heap :=
  foldl (λ h city, reset_visited city h) h city_objects.

(** The [for neighbor in city.connections] loop of the depth-first search.
    The stack is kept with its top (the end of the Python list) first. *)
Fixpoint dfs_neighbors (ns : list nat) (h : heap) (island_population : Z)
    (stack : list nat) : heap * Z * list nat :=
  match ns with
  | [] => (h, island_population, stack)
  | neighbor :: ns' =>
      match h !! neighbor with
      | Some c =>
          if visited c then dfs_neighbors ns' h island_population stack
          else dfs_neighbors ns' (<[neighbor := set_visited true c]> h)
                 (island_population + population c) (neighbor :: stack)
      | None => dfs_neighbors ns' h island_population stack
      end
  end.

(** [while stack: city = stack.pop(); ...]; [fuel] bounds the number of
    iterations, [None] is fuel exhaustion. *)
Fixpoint dfs_loop (fuel : nat) (h : heap) (island_population : Z)
    (stack : list nat) : option (heap * Z) :=
  match stack with
  | [] => Some (h, island_population)
  | city :: stack' =>
      match fuel with
      | O => None
      | S fuel' =>
          let '(h', total, stack'') :=
            dfs_neighbors (conns h city) h island_population stack' in
          dfs_loop fuel' h' total stack''
      end
  end.

(** [_depth_first_search(start_city)]: the store it leaves and the
    population it returns. *)
Definition _depth_first_search (fuel : nat) (start_city : nat) (h : heap)
  : option (heap * Z) :=
  match h !! start_city with
  | Some c =>
      if visited c then Some (h, 0)
      else dfs_loop fuel (<[start_city := set_visited true c]> h)
             (population c) [start_city]
  | None => Some (h, 0)
  end.

(** The counting loop of [number_of_islands]. *)
Fixpoint islands_loop (fuel : nat) (city_objects : list nat) (h : heap)
    (num_islands : Z) : option (heap * Z) :=
  match city_objects with
  | [] => Some (h, num_islands)
  | city :: rest =>
      match h !! city with
      | Some c =>
          if visited c then islands_loop fuel rest h num_islands
          else
            match _depth_first_search fuel city h with
            | Some (h', _) => islands_loop fuel rest h' (num_islands + 1)
            | None => None
            end
      | None => islands_loop fuel rest h num_islands
      end
  end.

(** [number_of_islands(city_objects)]: the store it leaves and the count. *)
Definition number_of_islands (fuel : nat) (city_objects : list nat) (h : heap)
  : option (heap * Z) :=
  islands_loop fuel city_objects (reset_all city_objects h) 0.

(** The collecting loop of [island_populations]. *)
Fixpoint populations_loop (fuel : nat) (city_objects : list nat) (h : heap)
    (populations : list Z) : option (heap * list Z) :=
  match city_objects with
  | [] => Some (h, populations)
  | city :: rest =>
      match h !! city with
      | Some c =>
          if visited c then populations_loop fuel rest h populations
          else
            match _depth_first_search fuel city h with
            | Some (h', total_pop) =>
                populations_loop fuel rest h' (populations ++ [total_pop])
            | None => None
            end
      | None => populations_loop fuel rest h populations
      end
  end.

(** [island_populations(city_objects)]: the store it leaves and the list. *)
Definition island_populations (fuel : nat) (city_objects : list nat) (h : heap)
  : option (heap * list Z) :=
  populations_loop fuel city_objects (reset_all city_objects h) [].

(** The [for neighbor in current_city.connections] loop of the
    breadth-first search: either the value returned from inside the loop,
    or the visited set and the queue it leaves. *)
Fixpoint bfs_neighbors (end_city : nat) (distance : Z) (ns : list nat)
    (seen : gset nat) (queue : list (nat * Z)) : Z + gset nat * list (nat * Z) :=
  match ns with
  | [] => inr (seen, queue)
  | neighbor :: ns' =>
      if decide (neighbor = end_city) then inl (distance + 1)
      else if decide (neighbor ∈ seen)
           then bfs_neighbors end_city distance ns' seen queue
           else bfs_neighbors end_city distance ns' ({[neighbor]} ∪ seen)
                  (queue ++ [(neighbor, distance + 1)])
  end.

(** [while queue: current_city, distance = queue.popleft(); ...], then
    [return -1]; [fuel] bounds the number of iterations. *)
Fixpoint bfs_loop (fuel : nat) (h : heap) (end_city : nat)
    (seen : gset nat) (queue : list (nat * Z)) : option Z :=
  match queue with
  | [] => Some (-1)
  | (current_city, distance) :: queue' =>
      match fuel with
      | O => None
      | S fuel' =>
          match bfs_neighbors end_city distance (conns h current_city) seen queue' with
          | inl r => Some r
          | inr (seen', queue'') => bfs_loop fuel' h end_city seen' queue''
          end
      end
  end.

(** [min_highways(start_city, end_city)]; the store is only read. *)
Definition min_highways (fuel : nat) (h : heap) (start_city end_city : nat)
  : option Z :=
  if decide (start_city = end_city) then Some 0
  else bfs_loop fuel h end_city {[start_city]} [(start_city, 0)].

(** * Vocabulary *)

(** ** Lines and what they contribute *)

(** The two sides of a line that splits into exactly two parts. *)
Definition two_parts (line : string) : option (string * string) :=
  match Py.split separator (Py.strip line) with
  | [a; b] => Some (a, b)
  | _ => None
  end.

(** The entry declared by a well-formed population line. *)
Definition parse_population (line : string) : option (string * Z) :=
  match two_parts line with
  | Some (a, b) =>
      match Py.int (Py.strip b) with
      | Some p => Some (Py.strip a, p)
      | None => None
      end
  | None => None
  end.

(** The two names of a well-formed road line. *)
Definition parse_road (line : string) : option (string * string) :=
  match two_parts line with
  | Some (a, b) => Some (Py.strip a, Py.strip b)
  | None => None
  end.

(** The effect of one population line on the state of the construction. *)
Definition population_step (st : build_state) (line : string) : build_state :=
  match parse_population line with
  | Some (n, p) => register_city n p st
  | None => st
  end.

(** The effect of one road line. *)
Definition road_step (st : build_state) (line : string) : build_state :=
  match parse_road line with
  | Some (a, b) =>
      match Py.get a (city_map st), Py.get b (city_map st) with
      | Some city1, Some city2 => connect city1 city2 st
      | _, _ => st
      end
  | None => st
  end.

(** [text.split('\n')] *)
Definition lines (text : string) : list string := Py.split newline text.

(** The state after the loop over the population lines. *)
Definition after_population (pop_data : string) : build_state :=
  foldl population_step empty_state (lines pop_data).

(** The state after the loop over the road lines. *)
Definition after_roads (pop_data road_data : string) : build_state :=
  foldl road_step (after_population pop_data) (lines road_data).

(** What a road never changes. *)
Definition attrs (c : City) : string * Z * bool :=
  (name c, population c, visited c).

(** The registry binds distinct names to distinct live objects carrying
    those names, and no object is marked. *)
Record registry_ok (st : build_state) : Prop := {
  reg_keys : NoDup (city_map st).*1;
  reg_values : NoDup (Py.values (city_map st));
  reg_named : ∀ k v, (k, v) ∈ city_map st →
              ∃ c, objects st !! v = Some c ∧ name c = k;
  reg_fresh : ∀ i c, objects st !! i = Some c → visited c = false
}.

(** The road [line] names the registered cities [i] and [j], in either
    order. *)
Definition edge_of_line (d : Py.dict) (line : string) (i j : nat) : Prop :=
  ∃ a b x y, parse_road line = Some (a, b) ∧
             Py.get a d = Some x ∧ Py.get b d = Some y ∧
             ((i = x ∧ j = y) ∨ (i = y ∧ j = x)).

(** ** Graphs and markers *)

(** What the traversals rely on: the returned references are distinct and
    live, no connection leaves the returned list, and connections come in
    pairs. *)
Record graph_ok (h : heap) (nodes : list nat) : Prop := {
  g_nodup : NoDup nodes;
  g_valid : ∀ r, r ∈ nodes → (r < length h)%nat;
  g_closed : ∀ i j, j ∈ conns h i → i ∈ nodes ∧ j ∈ nodes;
  g_sym : ∀ i j, j ∈ conns h i → i ∈ conns h j
}.

(** [r.visited] *)
Definition is_visited (h : heap) (r : nat) : bool :=
  match h !! r with
  | Some c => visited c
  | None => false
  end.

(** [r.population] *)
Definition pop_of (h : heap) (r : nat) : Z :=
  match h !! r with
  | Some c => population c
  | None => 0
  end.

(** [sum(l)] *)
Definition py_sum (l : list Z) : Z := foldr Z.add 0 l.

(** The sum of the population attribute over the given nodes. *)
Definition total_population (h : heap) (nodes : list nat) : Z :=
  py_sum (pop_of h <$> nodes).

(** The part of it owed to nodes already marked. *)
Definition marked_population (h : heap) (nodes : list nat) : Z :=
  py_sum ((λ r, if is_visited h r then pop_of h r else 0) <$> nodes).

(** The number of nodes already marked. *)
Definition marked_count (h : heap) (nodes : list nat) : nat :=
  length (filter (λ r, is_visited h r = true) nodes).

(** The number of objects not marked yet: what bounds the depth-first loop. *)
Definition unvisited (h : heap) : nat :=
  length (filter (λ c, visited c = false) h).

(** [h'] is [h] with other values of the [visited] markers. *)
Definition same_graph (h h' : heap) : Prop :=
  length h' = length h ∧
  ∀ i c, h !! i = Some c →
    ∃ c', h' !! i = Some c' ∧ name c' = name c ∧
          population c' = population c ∧ connections c' = connections c.

(** [h'] is [h] with more nodes marked. *)
Definition marks (h h' : heap) : Prop :=
  same_graph h h' ∧ ∀ r, is_visited h r = true → is_visited h' r = true.

(** What relates the island counter to the nodes marked so far. *)
Definition islands_inv (nodes : list nat) (h : heap) (num : Z) : Prop :=
  num ≤ Z.of_nat (marked_count h nodes) ∧
  ((∃ x y, is_visited h x = true ∧ y ∈ conns h x ∧ y ≠ x) →
   num < Z.of_nat (marked_count h nodes)) ∧
  ((∀ i j, j ∈ conns h i → j = i) → num = Z.of_nat (marked_count h nodes)).

(** ** Paths and the breadth-first search *)

(** [walk h a k b]: [b] is reached from [a] along [k] connections. *)
Inductive walk (h : heap) (a : nat) : nat → nat → Prop :=
| walk_here : walk h a 0 a
| walk_step k b c : walk h a k b → c ∈ conns h b → walk h a (S k) c.

(** [k] is the minimum number of edges on any path from [a] to [b]. *)
Definition shortest (h : heap) (a b : nat) (k : nat) : Prop :=
  walk h a k b ∧ ∀ m, walk h a m b → (k ≤ m)%nat.

(** Some path leads from [a] to [b]. *)
Definition reachable (h : heap) (a b : nat) : Prop := ∃ k, walk h a k b.

(** The queue holds the nodes of level [d] still to be explored, followed
    by the nodes of level [d + 1] found so far. *)
Definition queue_levels (d : Z) (queue : list (nat * Z)) : Prop :=
  ∃ q1 q2, queue = q1 ++ q2 ∧
           (∀ x, x ∈ q1 → x.2 = d) ∧ (∀ x, x ∈ q2 → x.2 = d + 1).

(** The state of the search: [k] is the level being explored, [pending]
    holds the node taken off the queue while its connections are being
    scanned. *)
Record bfs_inv (h : heap) (start_city end_city : nat) (k : nat)
    (pending : list nat) (seen : gset nat) (queue : list (nat * Z)) : Prop := {
  inv_start : start_city ∈ seen;
  inv_end : end_city ∉ seen;
  inv_live : ∀ v, v ∈ seen → (v < length h)%nat;
  inv_queue : ∀ c d, (c, d) ∈ queue →
              c ∈ seen ∧ ∃ m, d = Z.of_nat m ∧ shortest h start_city c m;
  inv_pending : ∀ c, c ∈ pending → c ∈ seen ∧ shortest h start_city c k;
  inv_levels : queue_levels (Z.of_nat k) queue;
  inv_closed : ∀ v n, v ∈ seen → v ∉ queue.*1 → v ∉ pending →
               n ∈ conns h v → n ∈ seen;
  inv_done : ∀ u m, walk h start_city m u → (m < k)%nat →
             u ∈ seen ∧ (u ∉ queue.*1) ∧ u ∉ pending
}.

(** What [min_highways] may return when the two cities differ. *)
Definition bfs_answer (h : heap) (start_city end_city : nat) (r : Z) : Prop :=
  (∃ m, r = Z.of_nat m ∧ shortest h start_city end_city m) ∨
  (r = -1 ∧ ¬ reachable h start_city end_city).

(** ** Declarations *)

(** The entries declared by the well-formed population lines, in order. *)
Definition population_entries (pop_data : string) : list (string * Z) :=
  omap parse_population (lines pop_data).

(** The names of a list in the order of their first occurrences. *)
Fixpoint first_occurrences (ks : list string) : list string :=
  match ks with
  | [] => []
  | k :: rest => k :: filter (λ x, x ≠ k) (first_occurrences rest)
  end.

(** The value of the last entry for [k]. *)
Fixpoint last_value (k : string) (es : list (string * Z)) : option Z :=
  match es with
  | [] => None
  | (k', p) :: rest =>
      match last_value k rest with
      | Some q => Some q
      | None => if decide (k' = k) then Some p else None
      end
  end.

(** [population_step] for a line already parsed. *)
Definition register_entry (st : build_state) (e : string * Z) : build_state :=
  register_city e.1 e.2 st.

(** ** Texts *)

(** ['\n' in s] *)
Fixpoint has_newline (s : string) : bool :=
  match s with
  | EmptyString => false
  | String a s' => if Ascii.eqb a "010" then true else has_newline s'
  end.

(** A string that [split] on newlines leaves whole. *)
Definition single_line (l : string) : Prop := has_newline l = false.

(** ** Built graphs *)

(** The store with every marker cleared: what the markers are not part of. *)
Definition unmarked (h : heap) : heap := set_visited false <$> h.

(** [h] is the store left by [build_graph], whatever its markers have
    become since, and [nodes] the list it returned. *)
Definition built (pop_data road_data : string) (h : heap) (nodes : list nat) : Prop :=
  ∃ h0, build_graph pop_data road_data = Ok (h0, nodes) ∧ unmarked h = unmarked h0.

(** Two stores for one graph whose markers agree on [nodes]. *)
Definition agree_on (nodes : list nat) (h1 h2 : heap) : Prop :=
  unmarked h1 = unmarked h2 ∧ ∀ r, r ∈ nodes → is_visited h1 r = is_visited h2 r.

(** The same outcome, up to the markers outside [nodes]. *)
Definition same_outcome {A} (nodes : list nat) (o1 o2 : option (heap * A)) : Prop :=
  match o1, o2 with
  | Some (h1, a1), Some (h2, a2) => agree_on nodes h1 h2 ∧ a1 = a2
  | None, None => True
  | _, _ => False
  end.

(** ** A worked example: the chain A - B - C - D and the lone city E *)

Definition example_population : string :=
  Py.join newline ["A : 10"; "B : 20"; "C : 30"; "D : 40"; "E : 5"]%string.

Definition example_roads : string :=
  Py.join newline ["A : B"; "B : C"; "C : D"]%string.

Definition example_heap : heap :=
  [mkCity "A" 10 [1%nat] false;
   mkCity "B" 20 [0%nat; 2%nat] false;
   mkCity "C" 30 [1%nat; 3%nat] false;
   mkCity "D" 40 [2%nat] false;
   mkCity "E" 5 [] false].

Definition example_nodes : list nat := [0; 1; 2; 3; 4]%nat.

(** Closes a decidable goal by evaluation. *)
Ltac by_evaluation := apply (bool_decide_unpack _); vm_compute; exact I.

(** ** What the claims speak of *)

(** The graph has no edge at all. *)
Definition zero_edges (h : heap) (nodes : list nat) : Prop :=
  ∀ r, r ∈ nodes → conns h r = [].

(** Every edge of the graph joins a node to itself. *)
Definition only_self_loops (h : heap) (nodes : list nat) : Prop :=
  ∀ i j, i ∈ nodes → j ∈ conns h i → j = i.

(** The names registered from the population data. *)
Definition registered (pop_data : string) (k : string) : Prop :=
  k ∈ (population_entries pop_data).*1.



(** The name of the city behind a reference. *)
Definition name_of (h : heap) (r : nat) : string :=
  match h !! r with
  | Some c => name c
  | None => EmptyString
  end.

(** ** Components *)

(** Every marked node of the list has its connections marked. *)
Definition closed_marks (h : heap) (nodes : list nat) : Prop :=
  Forall (λ v, is_visited h v = true →
               Forall (λ j, is_visited h j = true) (conns h v)) nodes.

(** The nodes of the list that [h'] marks and [h] does not. *)
Definition newly_marked (h h' : heap) (nodes : list nat) : list nat :=
  filter (λ v, is_visited h' v = true ∧ is_visited h v = false) nodes.

(** [p] is the total population of the nodes connected to [r]. *)
Definition component_sum (h : heap) (nodes : list nat) (r : nat) (p : Z) : Prop :=
  ∃ comp, comp `sublist_of` nodes ∧
          (∀ v, v ∈ comp ↔ v ∈ nodes ∧ reachable h r v) ∧
          p = total_population h comp.

(** One node out of each connected component. *)
Definition representatives (h : heap) (nodes reps : list nat) : Prop :=
  NoDup reps ∧
  (∀ r, r ∈ reps → r ∈ nodes) ∧
  (∀ v, v ∈ nodes → ∃ r, r ∈ reps ∧ reachable h r v) ∧
  (∀ r r', r ∈ reps → r' ∈ reps → reachable h r r' → r = r').

(** [reps] holds the cities of the list that no earlier city of the list
    is connected to: the first city of each island. *)
Definition first_cities (h : heap) (nodes reps : list nat) : Prop :=
  ∀ l1 r l2, nodes = l1 ++ r :: l2 →
             (r ∈ reps ↔ ∀ u, u ∈ l1 → ¬ reachable h u r).

(** The state of a depth-first search from [s] in the store [h0]: the
    marks have grown, a marked node off the stack has its connections
    marked, and what is newly marked or on the stack is reachable from
    [s]. *)
Definition dfs_inv (h0 : heap) (s : nat) (h : heap) (stack : list nat) : Prop :=
  marks h0 h ∧
  (∀ v j, is_visited h v = true → v ∉ stack → j ∈ conns h0 v →
          is_visited h j = true) ∧
  (∀ v, is_visited h v = true → is_visited h0 v = true ∨ reachable h0 s v) ∧
  (∀ v, v ∈ stack → reachable h0 s v).

(** The state of the loops over the cities, [done] being the cities gone
    through: the marks are closed, the nodes marked are those connected to
    a city gone through, and [reps] holds one city out of each island met,
    the first one gone through. *)
Definition islands_found (h0 : heap) (nodes done reps : list nat) (h : heap) : Prop :=
  marks h0 h ∧ closed_marks h nodes ∧
  (∀ v, v ∈ nodes → is_visited h v = true ↔ ∃ d, d ∈ done ∧ reachable h0 d v) ∧
  (∀ d, d ∈ done → d ∈ nodes) ∧
  NoDup reps ∧ reps `sublist_of` done ∧
  (∀ r, r ∈ reps → r ∈ done) ∧
  (∀ d, d ∈ done → ∃ r, r ∈ reps ∧ reachable h0 r d) ∧
  (∀ r r', r ∈ reps → r' ∈ reps → reachable h0 r r' → r = r') ∧
  (∀ l1 r l2, done = l1 ++ r :: l2 → r ∉ l1 →
              (r ∈ reps ↔ ∀ u, u ∈ l1 → ¬ reachable h0 u r)).

(** * Lemmas *)

(** ** What a line contributes *)

Lemma two_parts_blank line : Py.strip line = EmptyString → two_parts line = None.
Proof. unfold two_parts. intros ->. reflexivity. Qed.

Lemma population_line_run line st :
  population_line line st = (population_step st line, Ok tt).
Proof.
  unfold population_line, population_step, parse_population.
  case_decide as Hb.
  { rewrite (two_parts_blank _ Hb). reflexivity. }
  unfold two_parts, try_except_ValueError, mbind, M_bind, Exc.bind, unpack2.
  destruct (Py.split separator (Py.strip line)) as [|a [|b [|? ?]]]; try reflexivity.
  simpl. destruct (Py.int (Py.strip b)); reflexivity.
Qed.

Lemma road_line_run line st :
  road_line line st = (road_step st line, Ok tt).
Proof.
  unfold road_line, road_step, parse_road.
  case_decide as Hb.
  { rewrite (two_parts_blank _ Hb). reflexivity. }
  unfold two_parts, try_except_ValueError, mbind, M_bind, Exc.bind, unpack2.
  destruct (Py.split separator (Py.strip line)) as [|a [|b [|? ?]]]; try reflexivity.
  simpl. unfold Py.contains.
  destruct (Py.get (Py.strip a) (city_map st)), (Py.get (Py.strip b) (city_map st));
    reflexivity.
Qed.

Lemma for_each_run {S A} (body : A → M S unit) (step : S → A → S) xs s :
  (∀ x s, body x s = (step s x, Ok tt)) →
  for_each xs body s = (foldl step s xs, Ok tt).
Proof.
  intros Hbody. revert s. induction xs as [|x xs IH]; intros s; [reflexivity|].
  simpl. unfold Exc.bind. rewrite Hbody. apply IH.
Qed.

Lemma build_graph_run pop_data road_data :
  build_graph pop_data road_data =
  Ok (objects (after_roads pop_data road_data),
      Py.values (city_map (after_roads pop_data road_data))).
Proof.
  unfold build_graph, build_graph_body, mbind, M_bind, Exc.bind.
  rewrite (for_each_run _ population_step) by apply population_line_run.
  rewrite (for_each_run _ road_step) by apply road_line_run.
  reflexivity.
Qed.

(** ** The dictionary *)

Section dict_facts.
Implicit Types (d : Py.dict) (k : string) (v : nat).

Lemma get_elem_of d k v : Py.get k d = Some v → (k, v) ∈ d.
Proof.
  induction d as [|[k' v'] d IH]; simpl; [done|].
  case_decide as Hk.
  - intros [= ->]. subst. left.
  - intros H. right. auto.
Qed.

Lemma get_value d k v : Py.get k d = Some v → v ∈ Py.values d.
Proof.
  intros H%get_elem_of. unfold Py.values.
  apply list_elem_of_fmap. by exists (k, v).
Qed.

Lemma get_None d k : Py.get k d = None ↔ k ∉ d.*1.
Proof.
  induction d as [|[k' v'] d IH]; simpl.
  - split; [intros _; apply not_elem_of_nil | done].
  - case_decide as Hk.
    + subst. split; [done|]. intros []. left.
    + rewrite IH, not_elem_of_cons. split; [by intros ?; split; [congruence|] | by intros [_ ?]].
Qed.

Lemma get_is_Some d k : is_Some (Py.get k d) ↔ k ∈ d.*1.
Proof.
  destruct (Py.get k d) eqn:E.
  - split; [|eauto]. intros _.
    destruct (decide (k ∈ d.*1)) as [|Hn]; [done|].
    apply get_None in Hn. congruence.
  - split; [by intros [? ?]|]. intros Hin. by apply get_None in E.
Qed.

Lemma elem_of_get d k v : NoDup d.*1 → (k, v) ∈ d → Py.get k d = Some v.
Proof.
  induction d as [|[k' v'] d IH]; simpl; intros Hnd Hin.
  - by apply elem_of_nil in Hin.
  - apply NoDup_cons in Hnd as [Hk Hnd].
    apply elem_of_cons in Hin as [[= -> ->]|Hin].
    + by rewrite decide_True.
    + case_decide as E; [|by apply IH].
      subst. exfalso. apply Hk, list_elem_of_fmap. by exists (k, v).
Qed.

Lemma setitem_keys d k v :
  (Py.setitem k v d).*1 = if decide (k ∈ d.*1) then d.*1 else d.*1 ++ [k].
Proof.
  induction d as [|[k' v'] d IH]; [done|].
  cbn [Py.setitem fmap list_fmap fst].
  destruct (decide (k' = k)) as [->|Hk].
  - rewrite decide_True by left. done.
  - cbn [fmap list_fmap fst]. change (list_fmap _ _ fst ?l) with (l.*1).
    rewrite IH. destruct (decide (k ∈ d.*1)) as [Hin|Hin].
    + rewrite decide_True by (by right). done.
    + rewrite decide_False; [done|].
      rewrite not_elem_of_cons. split; [congruence | done].
Qed.

Lemma setitem_get d k v k' :
  Py.get k' (Py.setitem k v d) = if decide (k = k') then Some v else Py.get k' d.
Proof.
  induction d as [|[k0 v0] d IH]; cbn [Py.setitem Py.get].
  - done.
  - destruct (decide (k0 = k)) as [->|Hne]; cbn [Py.get].
    + destruct (decide (k = k')); done.
    + rewrite IH. destruct (decide (k0 = k')), (decide (k = k')); congruence.
Qed.

Lemma setitem_elem_of d k v k' v' :
  (k', v') ∈ Py.setitem k v d → (k' = k ∧ v' = v) ∨ (k', v') ∈ d.
Proof.
  induction d as [|[k0 v0] d IH]; cbn [Py.setitem].
  - intros H%list_elem_of_singleton. left. by inversion H.
  - destruct (decide (k0 = k)) as [->|Hk].
    + intros [H|H]%elem_of_cons; [left; by inversion H | right; by right].
    + intros [H|H]%elem_of_cons; [right; rewrite H; left|].
      destruct (IH H) as [?|?]; [by left | right; by right].
Qed.

Lemma setitem_keys_NoDup d k v : NoDup d.*1 → NoDup (Py.setitem k v d).*1.
Proof.
  intros Hnd. rewrite setitem_keys. case_decide as Hin; [done|].
  apply NoDup_app. split_and!; [done| |apply NoDup_singleton].
  intros x Hx ->%list_elem_of_singleton. done.
Qed.

Lemma setitem_values_NoDup d k v :
  v ∉ Py.values d → NoDup (Py.values d) → NoDup (Py.values (Py.setitem k v d)).
Proof.
  unfold Py.values.
  induction d as [|[k0 v0] d IH]; simpl; intros Hv Hnd.
  - apply NoDup_singleton.
  - apply not_elem_of_cons in Hv as [Hne Hv].
    apply NoDup_cons in Hnd as [Hv0 Hnd].
    case_decide as Hk; simpl.
    + apply NoDup_cons. split; [done|done].
    + apply NoDup_cons. split; [|by apply IH].
      intros Hin. apply list_elem_of_fmap in Hin as [[k1 v1] [-> Hin]].
      apply setitem_elem_of in Hin as [[_ ?]|Hin]; simpl in *; [congruence|].
      apply Hv0, list_elem_of_fmap. by exists (k1, v1).
Qed.
End dict_facts.

(** ** The object store *)

Section store_facts.
Implicit Types (h : heap) (i j a b : nat) (c : City).

Lemma conns_lookup h i c : h !! i = Some c → conns h i = connections c.
Proof. unfold conns. by intros ->. Qed.

Lemma conns_valid h i j : j ∈ conns h i → (i < length h)%nat.
Proof.
  unfold conns. destruct (h !! i) eqn:E.
  - intros _. by eapply lookup_lt_Some.
  - by intros ?%elem_of_nil.
Qed.

Lemma add_connection_lookup a b h i :
  add_connection a b h !! i =
  (λ c, if decide (i = a)
        then if decide (b ∈ connections c) then c
             else set_connections (connections c ++ [b]) c
        else c) <$> h !! i.
Proof.
  unfold add_connection. destruct (h !! a) as [ca|] eqn:Ea.
  - destruct (decide (b ∈ connections ca)) as [Hin|Hin].
    + destruct (decide (i = a)) as [->|Hne].
      * rewrite Ea. simpl. by rewrite decide_True.
      * by destruct (h !! i).
    + destruct (decide (i = a)) as [->|Hne].
      * rewrite list_lookup_insert_eq by (by eapply lookup_lt_Some).
        rewrite Ea. simpl. by rewrite decide_False.
      * rewrite list_lookup_insert_ne by done. by destruct (h !! i).
  - destruct (decide (i = a)) as [->|Hne].
    + by rewrite Ea.
    + by destruct (h !! i).
Qed.

Lemma add_connection_length a b h : length (add_connection a b h) = length h.
Proof.
  unfold add_connection. destruct (h !! a); [|done].
  case_decide; [done|]. apply length_insert.
Qed.

Lemma add_connection_attrs a b h i :
  attrs <$> add_connection a b h !! i = attrs <$> h !! i.
Proof.
  rewrite add_connection_lookup. destruct (h !! i) as [c|]; [|done].
  simpl. repeat case_decide; done.
Qed.

Lemma add_connection_conns a b h i j :
  j ∈ conns (add_connection a b h) i ↔
  j ∈ conns h i ∨ (i = a ∧ j = b ∧ (a < length h)%nat).
Proof.
  unfold conns at 1. rewrite add_connection_lookup.
  destruct (h !! i) as [c|] eqn:Ei; simpl.
  - rewrite (conns_lookup _ _ _ Ei).
    destruct (decide (i = a)) as [->|Hne].
    + destruct (decide (b ∈ connections c)) as [Hin|Hin].
      * split; [by left|]. intros [?|(_ & -> & _)]; done.
      * simpl. rewrite elem_of_app, list_elem_of_singleton.
        split; [|tauto]. intros [? | ->]; [by left|].
        right. split_and!; [done..|]. by eapply lookup_lt_Some.
    + split; [by left|]. intros [?|(? & _)]; done.
  - split; [by intros ?%elem_of_nil|].
    intros [H%conns_valid|(-> & _ & Hlt)].
    + apply lookup_ge_None in Ei. lia.
    + apply lookup_ge_None in Ei. lia.
Qed.
End store_facts.

(** ** Invariants of the construction *)

Section build_facts.
Implicit Types (st : build_state) (line : string) (i j : nat).

Lemma registry_ok_empty : registry_ok empty_state.
Proof.
  split; simpl.
  - apply NoDup_nil_2.
  - apply NoDup_nil_2.
  - by intros k v ?%elem_of_nil.
  - by intros i c ?.
Qed.

Lemma registry_value_lt st v :
  registry_ok st → v ∈ Py.values (city_map st) → (v < length (objects st))%nat.
Proof.
  intros Hok Hv. apply list_elem_of_fmap in Hv as [[k v'] [-> Hin]].
  destruct (reg_named _ Hok _ _ Hin) as (c & Hc & _).
  by eapply lookup_lt_Some.
Qed.

Lemma get_lt st k v :
  registry_ok st → Py.get k (city_map st) = Some v → (v < length (objects st))%nat.
Proof. intros Hok Hg. eapply registry_value_lt, get_value; done. Qed.

Lemma register_city_ok st n p : registry_ok st → registry_ok (register_city n p st).
Proof.
  intros Hok. split; simpl.
  - apply setitem_keys_NoDup, Hok.
  - apply setitem_values_NoDup; [|apply Hok].
    intros Hin%(registry_value_lt _ _ Hok). lia.
  - intros k v [[-> ->]|Hin]%setitem_elem_of.
    + exists (City_init n p). split; [|done].
      rewrite lookup_app_r by done. by rewrite Nat.sub_diag.
    + destruct (reg_named _ Hok _ _ Hin) as (c & Hc & Hn).
      exists c. split; [|done]. by apply lookup_app_l_Some.
  - intros i c [Hc|[_ Hc]]%lookup_app_Some.
    + by eapply reg_fresh.
    + destruct (i - length (objects st))%nat; simpl in Hc; [|done].
      by inversion Hc.
Qed.

Lemma population_step_ok st line : registry_ok st → registry_ok (population_step st line).
Proof.
  unfold population_step. destruct (parse_population line) as [[n p]|]; [|done].
  apply register_city_ok.
Qed.

Lemma population_step_no_edges st line :
  (∀ i, conns (objects st) i = []) →
  ∀ i, conns (objects (population_step st line)) i = [].
Proof.
  unfold population_step. destruct (parse_population line) as [[n p]|]; [|done].
  intros Hno i. specialize (Hno i). unfold conns in *. simpl.
  destruct (decide (i < length (objects st))%nat) as [Hlt|Hge].
  - by rewrite lookup_app_l.
  - rewrite lookup_app_r by lia.
    destruct (i - length (objects st))%nat as [|[|?]]; done.
Qed.

Lemma after_population_ok pop_data :
  registry_ok (after_population pop_data) ∧
  ∀ i, conns (objects (after_population pop_data)) i = [].
Proof.
  unfold after_population.
  assert (∀ ls st, registry_ok st ∧ (∀ i, conns (objects st) i = []) →
            registry_ok (foldl population_step st ls) ∧
            ∀ i, conns (objects (foldl population_step st ls)) i = []) as Hgen.
  { induction ls as [|l ls IH]; intros st [Hok Hno]; [done|].
    simpl. apply IH. split.
    - by apply population_step_ok.
    - by apply population_step_no_edges. }
  apply Hgen. split; [apply registry_ok_empty|]. by intros [|?].
Qed.

Lemma road_step_city_map st line : city_map (road_step st line) = city_map st.
Proof.
  unfold road_step. destruct (parse_road line) as [[a b]|]; [|done].
  by destruct (Py.get a (city_map st)), (Py.get b (city_map st)).
Qed.

Lemma road_step_length st line :
  length (objects (road_step st line)) = length (objects st).
Proof.
  unfold road_step. destruct (parse_road line) as [[a b]|]; [|done].
  destruct (Py.get a (city_map st)), (Py.get b (city_map st)); try done.
  simpl. by rewrite !add_connection_length.
Qed.

Lemma road_step_attrs st line i :
  attrs <$> objects (road_step st line) !! i = attrs <$> objects st !! i.
Proof.
  unfold road_step. destruct (parse_road line) as [[a b]|]; [|done].
  destruct (Py.get a (city_map st)), (Py.get b (city_map st)); try done.
  simpl. by rewrite !add_connection_attrs.
Qed.

Lemma attrs_transfer (h h' : heap) i c :
  attrs <$> h' !! i = attrs <$> h !! i → h !! i = Some c →
  ∃ c', h' !! i = Some c' ∧ attrs c' = attrs c.
Proof.
  intros Heq Hc. rewrite Hc in Heq. destruct (h' !! i) as [c'|]; [|done].
  exists c'. split; [done|]. simpl in Heq. congruence.
Qed.

Lemma road_step_ok st line : registry_ok st → registry_ok (road_step st line).
Proof.
  intros Hok. split; rewrite ?road_step_city_map; try apply Hok.
  - intros k v Hin. destruct (reg_named _ Hok _ _ Hin) as (c & Hc & Hn).
    destruct (attrs_transfer _ _ _ _ (road_step_attrs st line v) Hc) as (c' & Hc' & Ha).
    exists c'. split; [done|]. inversion Ha. congruence.
  - intros i c' Hc'.
    destruct (attrs_transfer _ _ _ _ (eq_sym (road_step_attrs st line i)) Hc')
      as (c & Hc & Ha).
    inversion Ha. erewrite <- reg_fresh by done. congruence.
Qed.

Lemma road_step_conns st line i j :
  registry_ok st →
  j ∈ conns (objects (road_step st line)) i ↔
  j ∈ conns (objects st) i ∨ edge_of_line (city_map st) line i j.
Proof.
  intros Hok. unfold road_step, edge_of_line.
  destruct (parse_road line) as [[a b]|] eqn:Ep.
  - destruct (Py.get a (city_map st)) as [x|] eqn:Ea;
      [destruct (Py.get b (city_map st)) as [y|] eqn:Eb|].
    + simpl. rewrite !add_connection_conns, add_connection_length.
      pose proof (get_lt _ _ _ Hok Ea). pose proof (get_lt _ _ _ Hok Eb).
      split.
      * intros [[?|(-> & -> & _)]|(-> & -> & _)]; [by left|right..];
          exists a, b, x, y; split_and!; auto.
      * intros [?|(a' & b' & x' & y' & [= <- <-] & Hx & Hy & Hcase)]; [tauto|].
        rewrite Ea in Hx. rewrite Eb in Hy. simplify_eq. tauto.
    + split; [by left|]. intros [?|(a' & b' & x' & y' & [= <- <-] & _ & Hy & _)]; [done|].
      congruence.
    + split; [by left|]. intros [?|(a' & b' & x' & y' & [= <- <-] & Hx & _)]; [done|].
      congruence.
  - split; [by left|]. intros [?|(a' & b' & x' & y' & ? & _)]; done.
Qed.

Lemma roads_city_map ls st : city_map (foldl road_step st ls) = city_map st.
Proof.
  revert st. induction ls as [|l ls IH]; intros st; [done|].
  simpl. by rewrite IH, road_step_city_map.
Qed.

Lemma roads_ok ls st : registry_ok st → registry_ok (foldl road_step st ls).
Proof.
  revert st. induction ls as [|l ls IH]; intros st Hok; [done|].
  simpl. by apply IH, road_step_ok.
Qed.

Lemma roads_length ls st :
  length (objects (foldl road_step st ls)) = length (objects st).
Proof.
  revert st. induction ls as [|l ls IH]; intros st; [done|].
  simpl. by rewrite IH, road_step_length.
Qed.

Lemma roads_attrs ls st i :
  attrs <$> objects (foldl road_step st ls) !! i = attrs <$> objects st !! i.
Proof.
  revert st. induction ls as [|l ls IH]; intros st; [done|].
  simpl. by rewrite IH, road_step_attrs.
Qed.

Lemma roads_conns ls st i j :
  registry_ok st →
  j ∈ conns (objects (foldl road_step st ls)) i ↔
  j ∈ conns (objects st) i ∨ ∃ line, line ∈ ls ∧ edge_of_line (city_map st) line i j.
Proof.
  revert st. induction ls as [|l ls IH]; intros st Hok; simpl.
  - split; [by left|]. intros [?|(line & ?%elem_of_nil & _)]; done.
  - rewrite IH by (by apply road_step_ok).
    rewrite road_step_conns, road_step_city_map by done.
    split.
    + intros [[?|?]|(line & ? & ?)]; [by left|right..].
      * exists l. split; [left|done].
      * exists line. split; [by right|done].
    + intros [?|(line & [->|?]%elem_of_cons & ?)]; [tauto|tauto|].
      right. by exists line.
Qed.

(** The edges of the built graph are exactly those named by a road line
    whose two cities are registered. *)
Lemma built_edges pop_data road_data i j :
  j ∈ conns (objects (after_roads pop_data road_data)) i ↔
  ∃ line, line ∈ lines road_data ∧
          edge_of_line (city_map (after_population pop_data)) line i j.
Proof.
  unfold after_roads. destruct (after_population_ok pop_data) as [Hok Hno].
  rewrite roads_conns by done. rewrite Hno.
  split; [|by right]. intros [?%elem_of_nil|?]; done.
Qed.

Lemma built_ok pop_data road_data : registry_ok (after_roads pop_data road_data).
Proof. apply roads_ok, after_population_ok. Qed.

Lemma built_city_map pop_data road_data :
  city_map (after_roads pop_data road_data) = city_map (after_population pop_data).
Proof. apply roads_city_map. Qed.
End build_facts.

(** ** Graphs *)

Lemma built_graph_ok pop_data road_data h nodes :
  build_graph pop_data road_data = Ok (h, nodes) → graph_ok h nodes.
Proof.
  rewrite build_graph_run. intros [= <- <-].
  pose proof (built_ok pop_data road_data) as Hok.
  assert (∀ i j, j ∈ conns (objects (after_roads pop_data road_data)) i →
            i ∈ Py.values (city_map (after_roads pop_data road_data))) as Hin.
  { intros i j (line & _ & a & b & x & y & _ & Hx & Hy & Hc)%built_edges.
    rewrite built_city_map.
    destruct Hc as [[-> _]|[-> _]]; by eapply get_value. }
  assert (∀ i j, j ∈ conns (objects (after_roads pop_data road_data)) i →
            i ∈ conns (objects (after_roads pop_data road_data)) j) as Hsym.
  { intros i j (line & Hl & a & b & x & y & Hp & Hx & Hy & Hc)%built_edges.
    apply built_edges. exists line. split; [done|].
    exists a, b, x, y. split_and!; [done..|]. tauto. }
  split.
  - apply Hok.
  - intros r Hr. by apply registry_value_lt.
  - intros i j Hj. split; [by eapply Hin|]. eapply Hin, Hsym, Hj.
  - done.
Qed.

Section marking.
Implicit Types (h : heap) (i j r n : nat) (c : City).

Lemma same_graph_refl h : same_graph h h.
Proof. split; [done|]. intros i c Hc. by exists c. Qed.

Lemma same_graph_trans h1 h2 h3 :
  same_graph h1 h2 → same_graph h2 h3 → same_graph h1 h3.
Proof.
  intros [Hl1 H1] [Hl2 H2]. split; [congruence|].
  intros i c Hc. destruct (H1 _ _ Hc) as (c2 & Hc2 & ? & ? & ?).
  destruct (H2 _ _ Hc2) as (c3 & Hc3 & ? & ? & ?).
  exists c3. split_and!; congruence.
Qed.

Lemma same_graph_sym h h' : same_graph h h' → same_graph h' h.
Proof.
  intros [Hl H]. split; [done|]. intros i c' Hc'.
  destruct (h !! i) as [c|] eqn:Hc.
  - destruct (H _ _ Hc) as (c2 & Hc2 & ? & ? & ?).
    exists c. split_and!; congruence.
  - apply lookup_ge_None in Hc. apply lookup_lt_Some in Hc'. lia.
Qed.

Lemma same_graph_conns h h' i : same_graph h h' → conns h' i = conns h i.
Proof.
  intros [Hl H]. unfold conns. destruct (h !! i) as [c|] eqn:Hc.
  - destruct (H _ _ Hc) as (c' & -> & _ & _ & ->). done.
  - apply lookup_ge_None in Hc. rewrite lookup_ge_None_2; [done|lia].
Qed.

Lemma same_graph_pop_of h h' i : same_graph h h' → pop_of h' i = pop_of h i.
Proof.
  intros [Hl H]. unfold pop_of. destruct (h !! i) as [c|] eqn:Hc.
  - destruct (H _ _ Hc) as (c' & -> & _ & -> & _). done.
  - apply lookup_ge_None in Hc. rewrite lookup_ge_None_2; [done|lia].
Qed.

Lemma same_graph_total h h' nodes :
  same_graph h h' → total_population h' nodes = total_population h nodes.
Proof.
  intros Hs. unfold total_population. f_equal.
  apply list_fmap_ext. intros _ r _. by apply same_graph_pop_of.
Qed.

Lemma same_graph_ok h h' nodes : same_graph h h' → graph_ok h nodes → graph_ok h' nodes.
Proof.
  intros Hs [H1 H2 H3 H4]. split; [done|..].
  - intros r Hr. destruct Hs as [-> _]. auto.
  - intros i j. rewrite (same_graph_conns _ _ _ Hs). auto.
  - intros i j. rewrite !(same_graph_conns _ _ _ Hs). auto.
Qed.

Lemma marks_refl h : marks h h.
Proof. split; [apply same_graph_refl | done]. Qed.

Lemma marks_trans h1 h2 h3 : marks h1 h2 → marks h2 h3 → marks h1 h3.
Proof.
  intros [Hs1 Hm1] [Hs2 Hm2]. split; [by eapply same_graph_trans | auto].
Qed.

(** Writing the marker of one node. *)
Lemma set_visited_same h n c b :
  h !! n = Some c → same_graph h (<[n := set_visited b c]> h).
Proof.
  intros Hn. split; [apply length_insert|].
  intros i ci Hi. destruct (decide (i = n)) as [->|Hne].
  - rewrite list_lookup_insert_eq by (by eapply lookup_lt_Some).
    exists (set_visited b c). simplify_eq. done.
  - rewrite list_lookup_insert_ne by done. by exists ci.
Qed.

Lemma is_visited_insert h n c b r :
  h !! n = Some c →
  is_visited (<[n := set_visited b c]> h) r
  = if decide (r = n) then b else is_visited h r.
Proof.
  intros Hn. unfold is_visited. destruct (decide (r = n)) as [->|Hne].
  - by rewrite list_lookup_insert_eq by (by eapply lookup_lt_Some).
  - by rewrite list_lookup_insert_ne.
Qed.

Lemma mark_marks h n c :
  h !! n = Some c → marks h (<[n := set_visited true c]> h).
Proof.
  intros Hn. split; [by apply set_visited_same|].
  intros r Hr. rewrite is_visited_insert by done. by case_decide.
Qed.

Lemma mark_unvisited h n c :
  h !! n = Some c → visited c = false →
  (unvisited (<[n := set_visited true c]> h) + 1 = unvisited h)%nat.
Proof.
  unfold unvisited. revert n. induction h as [|x h IH]; intros n Hn Hv; [done|].
  destruct n as [|n]; simpl in *.
  - simplify_eq. rewrite filter_cons_False by (simpl; congruence).
    rewrite filter_cons_True by done. simpl. lia.
  - specialize (IH _ Hn Hv). destruct (decide (visited x = false)).
    + rewrite !filter_cons_True by done. simpl. lia.
    + rewrite !filter_cons_False by done. done.
Qed.

Lemma unvisited_le h : (unvisited h ≤ length h)%nat.
Proof. apply length_filter. Qed.

Lemma marked_population_other h n c b nodes :
  h !! n = Some c → n ∉ nodes →
  marked_population (<[n := set_visited b c]> h) nodes = marked_population h nodes.
Proof.
  intros Hn Hnot. unfold marked_population. f_equal.
  apply list_fmap_ext. intros _ r Hr%list_elem_of_lookup_2.
  rewrite is_visited_insert by done.
  rewrite (same_graph_pop_of _ _ _ (set_visited_same _ _ _ b Hn)).
  rewrite decide_False; [done|]. by intros ->.
Qed.

Lemma mark_population h n c nodes :
  h !! n = Some c → visited c = false → NoDup nodes → n ∈ nodes →
  marked_population (<[n := set_visited true c]> h) nodes
  = marked_population h nodes + population c.
Proof.
  intros Hn Hv. induction nodes as [|r nodes IH]; intros Hnd Hin.
  - by apply elem_of_nil in Hin.
  - apply NoDup_cons in Hnd as [Hr Hnd].
    unfold marked_population in *. rewrite !fmap_cons. simpl.
    rewrite is_visited_insert by done.
    rewrite (same_graph_pop_of _ _ _ (set_visited_same _ _ _ true Hn)).
    destruct (decide (r = n)) as [->|Hne].
    + pose proof (marked_population_other h n c true nodes Hn Hr) as Ho.
      unfold marked_population in Ho. rewrite Ho.
      unfold is_visited, pop_of. rewrite Hn, Hv. lia.
    + apply elem_of_cons in Hin as [?|Hin]; [congruence|].
      rewrite IH by done. lia.
Qed.
End marking.

Section counting.
Implicit Types (h : heap) (r n a b : nat) (nodes : list nat).

Lemma marked_count_mono h h' nodes :
  marks h h' → (marked_count h nodes ≤ marked_count h' nodes)%nat.
Proof.
  intros [_ Hm]. unfold marked_count.
  induction nodes as [|r nodes IH]; [done|].
  destruct (is_visited h r) eqn:E.
  - rewrite !filter_cons_True by auto. simpl. lia.
  - rewrite (filter_cons_False _ r) by (rewrite E; done).
    destruct (is_visited h' r) eqn:E'.
    + rewrite filter_cons_True by done. simpl. lia.
    + rewrite filter_cons_False by (rewrite E'; done). done.
Qed.

Lemma marked_count_new1 h h' nodes a :
  marks h h' → a ∈ nodes → is_visited h a = false → is_visited h' a = true →
  (marked_count h nodes + 1 ≤ marked_count h' nodes)%nat.
Proof.
  intros Hm Hin Ha Ha'. induction nodes as [|r nodes IH].
  - by apply elem_of_nil in Hin.
  - pose proof (marked_count_mono h h' nodes Hm) as Hmono.
    unfold marked_count in *.
    destruct (decide (r = a)) as [->|Hne].
    + rewrite (filter_cons_False _ a) by (rewrite Ha; done).
      rewrite filter_cons_True by done. simpl. lia.
    + apply elem_of_cons in Hin as [?|Hin]; [congruence|].
      specialize (IH Hin). destruct Hm as [_ Hm].
      destruct (is_visited h r) eqn:E.
      * rewrite !filter_cons_True by auto. simpl. lia.
      * rewrite (filter_cons_False _ r) by (rewrite E; done).
        destruct (is_visited h' r) eqn:E'.
        -- rewrite filter_cons_True by done. simpl. lia.
        -- rewrite filter_cons_False by (rewrite E'; done). done.
Qed.

Lemma marked_count_new2 h h' nodes a b :
  marks h h' → a ≠ b → a ∈ nodes → b ∈ nodes →
  is_visited h a = false → is_visited h' a = true →
  is_visited h b = false → is_visited h' b = true →
  (marked_count h nodes + 2 ≤ marked_count h' nodes)%nat.
Proof.
  intros Hm Hab Hina Hinb Ha Ha' Hb Hb'. induction nodes as [|r nodes IH].
  - by apply elem_of_nil in Hina.
  - destruct (decide (r = a)) as [->|Hna].
    + apply elem_of_cons in Hinb as [?|Hinb]; [congruence|].
      pose proof (marked_count_new1 h h' nodes b Hm Hinb Hb Hb').
      unfold marked_count in *.
      rewrite (filter_cons_False _ a) by (rewrite Ha; done).
      rewrite filter_cons_True by done. simpl. lia.
    + apply elem_of_cons in Hina as [?|Hina]; [congruence|].
      destruct (decide (r = b)) as [->|Hnb].
      * pose proof (marked_count_new1 h h' nodes a Hm Hina Ha Ha').
        unfold marked_count in *.
        rewrite (filter_cons_False _ b) by (rewrite Hb; done).
        rewrite filter_cons_True by done. simpl. lia.
      * apply elem_of_cons in Hinb as [?|Hinb]; [congruence|].
        specialize (IH Hina Hinb). destruct Hm as [_ Hm].
        unfold marked_count in *.
        destruct (is_visited h r) eqn:E.
        -- rewrite !filter_cons_True by auto. simpl. lia.
        -- rewrite (filter_cons_False _ r) by (rewrite E; done).
           destruct (is_visited h' r) eqn:E'.
           ++ rewrite filter_cons_True by done. simpl. lia.
           ++ rewrite filter_cons_False by (rewrite E'; done). done.
Qed.

Lemma marked_count_other h n c bv nodes :
  h !! n = Some c → n ∉ nodes →
  marked_count (<[n := set_visited bv c]> h) nodes = marked_count h nodes.
Proof.
  intros Hn. unfold marked_count. induction nodes as [|r nodes IH]; [done|].
  intros [Hne Hnot]%not_elem_of_cons. specialize (IH Hnot).
  assert (is_visited (<[n:=set_visited bv c]> h) r = is_visited h r) as Hr.
  { rewrite is_visited_insert by done. by rewrite decide_False. }
  destruct (is_visited h r) eqn:E.
  - rewrite !filter_cons_True by done. simpl. by rewrite IH.
  - rewrite !filter_cons_False by (rewrite ?Hr, ?E; done). done.
Qed.

Lemma mark_count h n c nodes :
  h !! n = Some c → visited c = false → NoDup nodes → n ∈ nodes →
  marked_count (<[n := set_visited true c]> h) nodes = S (marked_count h nodes).
Proof.
  intros Hn Hv. induction nodes as [|r nodes IH]; intros Hnd Hin.
  - by apply elem_of_nil in Hin.
  - apply NoDup_cons in Hnd as [Hr Hnd].
    destruct (decide (r = n)) as [->|Hne].
    + pose proof (marked_count_other h n c true nodes Hn Hr) as Ho.
      unfold marked_count in *.
      rewrite filter_cons_True
        by (rewrite is_visited_insert by done; by rewrite decide_True).
      rewrite filter_cons_False by (unfold is_visited; rewrite Hn, Hv; done).
      simpl. by rewrite Ho.
    + apply elem_of_cons in Hin as [?|Hin]; [congruence|].
      specialize (IH Hnd Hin). unfold marked_count in *.
      assert (is_visited (<[n:=set_visited true c]> h) r = is_visited h r) as Hr'.
      { rewrite is_visited_insert by done. by rewrite decide_False. }
      destruct (is_visited h r) eqn:E.
      * rewrite !filter_cons_True by done. simpl. by rewrite IH.
      * rewrite !filter_cons_False by (rewrite ?Hr', ?E; done). done.
Qed.

Lemma marked_count_all h nodes :
  (∀ r, r ∈ nodes → is_visited h r = true) → marked_count h nodes = length nodes.
Proof.
  unfold marked_count. induction nodes as [|r nodes IH]; intros Hall; [done|].
  rewrite filter_cons_True by (apply Hall; left). simpl.
  rewrite IH; [done|]. intros r' Hr'. apply Hall. by right.
Qed.

Lemma marked_count_none h nodes :
  (∀ r, r ∈ nodes → is_visited h r = false) → marked_count h nodes = 0%nat.
Proof.
  unfold marked_count. induction nodes as [|r nodes IH]; intros Hall; [done|].
  rewrite filter_cons_False by (rewrite Hall; [done | left]).
  apply IH. intros r' Hr'. apply Hall. by right.
Qed.

Lemma marked_population_all h nodes :
  (∀ r, r ∈ nodes → is_visited h r = true) →
  marked_population h nodes = total_population h nodes.
Proof.
  intros Hall. unfold marked_population, total_population. f_equal.
  apply list_fmap_ext. intros _ r Hr%list_elem_of_lookup_2. by rewrite Hall.
Qed.

Lemma marked_population_none h nodes :
  (∀ r, r ∈ nodes → is_visited h r = false) → marked_population h nodes = 0.
Proof.
  unfold marked_population. induction nodes as [|r nodes IH]; intros Hall; [done|].
  rewrite fmap_cons. simpl. rewrite Hall by left.
  rewrite IH; [done|]. intros r' Hr'. apply Hall. by right.
Qed.

Lemma reset_visited_same h r : same_graph h (reset_visited r h).
Proof.
  unfold reset_visited. destruct (h !! r) eqn:E.
  - by apply set_visited_same.
  - apply same_graph_refl.
Qed.

Lemma reset_visited_false h r r' :
  r' = r ∨ is_visited h r' = false → is_visited (reset_visited r h) r' = false.
Proof.
  unfold reset_visited. destruct (h !! r) as [c|] eqn:E.
  - rewrite is_visited_insert by done. case_decide; [done|]. by intros [?|?].
  - intros [->|?]; [|done]. unfold is_visited. by rewrite E.
Qed.

Lemma reset_all_same cs h : same_graph h (reset_all cs h).
Proof.
  unfold reset_all. revert h. induction cs as [|c cs IH]; intros h; simpl.
  - apply same_graph_refl.
  - eapply same_graph_trans; [apply reset_visited_same | apply IH].
Qed.

Lemma reset_all_false cs h r :
  r ∈ cs ∨ is_visited h r = false → is_visited (reset_all cs h) r = false.
Proof.
  unfold reset_all. revert h. induction cs as [|c cs IH]; intros h; simpl.
  - by intros [?%elem_of_nil|?].
  - intros [[->|?]%elem_of_cons|?].
    + apply IH. right. apply reset_visited_false. by left.
    + apply IH. by left.
    + apply IH. right. apply reset_visited_false. by right.
Qed.
End counting.

(** ** Depth-first search *)

Section dfs_facts.
Variable nodes : list nat.
Hypothesis nodes_nodup : NoDup nodes.
Implicit Types (h : heap) (stack ns : list nat) (total : Z).

Lemma dfs_neighbors_spec ns h total stack h' total' stack' :
  dfs_neighbors ns h total stack = (h', total', stack') →
  (∀ n, n ∈ ns → n ∈ nodes) →
  marks h h' ∧
  (length stack' + unvisited h' = length stack + unvisited h)%nat ∧
  total' - total = marked_population h' nodes - marked_population h nodes ∧
  (∀ n, n ∈ ns → (n < length h)%nat → is_visited h' n = true) ∧
  (∀ s, s ∈ stack → s ∈ stack').
Proof.
  revert h total stack.
  induction ns as [|n ns IH]; intros h total stack Hrun Hns; simpl in Hrun.
  - simplify_eq. split_and!; [apply marks_refl|lia|lia| |done].
    by intros n ?%elem_of_nil.
  - assert (∀ m, m ∈ ns → m ∈ nodes) as Hns' by (intros m ?; apply Hns; by right).
    destruct (h !! n) as [c|] eqn:Hn; [destruct (visited c) eqn:Hv|].
    + destruct (IH _ _ _ Hrun Hns') as (Hm & Hlen & Htot & Hvis & Hst).
      split_and!; [done..| |done].
      intros m [->|Hm']%elem_of_cons Hlt; [|by apply Hvis].
      apply Hm. unfold is_visited. by rewrite Hn.
    + destruct (IH _ _ _ Hrun Hns') as (Hm & Hlen & Htot & Hvis & Hst).
      pose proof (mark_marks _ _ _ Hn) as Hm1.
      pose proof (mark_unvisited _ _ _ Hn Hv) as Hu.
      pose proof (mark_population _ _ _ nodes Hn Hv nodes_nodup
                    (Hns n ltac:(left))) as Hp.
      split_and!.
      * by eapply marks_trans.
      * simpl in Hlen. lia.
      * lia.
      * intros m [->|Hm']%elem_of_cons Hlt.
        -- apply Hm. rewrite is_visited_insert by done. by rewrite decide_True.
        -- apply Hvis; [done|]. by rewrite length_insert.
      * intros s Hs. apply Hst. by right.
    + destruct (IH _ _ _ Hrun Hns') as (Hm & Hlen & Htot & Hvis & Hst).
      split_and!; [done..| |done].
      intros m [->|Hm']%elem_of_cons Hlt; [|by apply Hvis].
      apply lookup_ge_None in Hn. lia.
Qed.

Lemma dfs_loop_spec fuel : ∀ h total stack,
  (length stack + unvisited h ≤ fuel)%nat →
  (∀ i j, j ∈ conns h i → j ∈ nodes) →
  ∃ h' total',
    dfs_loop fuel h total stack = Some (h', total') ∧
    marks h h' ∧
    total' - total = marked_population h' nodes - marked_population h nodes ∧
    (∀ s j, s ∈ stack → j ∈ conns h s → (j < length h)%nat →
            is_visited h' j = true).
Proof.
  induction fuel as [|fuel IH]; intros h total stack Hfuel Hclosed.
  - destruct stack as [|s stack]; [|simpl in Hfuel; lia].
    exists h, total. split_and!; [done|apply marks_refl|lia|].
    by intros s j ?%elem_of_nil.
  - destruct stack as [|city stack].
    { exists h, total. split_and!; [done|apply marks_refl|lia|].
      by intros s j ?%elem_of_nil. }
    simpl.
    destruct (dfs_neighbors (conns h city) h total stack)
      as [[h1 total1] stack1] eqn:Hrun.
    destruct (dfs_neighbors_spec _ _ _ _ _ _ _ Hrun (Hclosed city))
      as (Hm1 & Hlen & Htot1 & Hvis1 & Hst1).
    destruct (IH h1 total1 stack1) as (h' & total' & Hloop & Hm & Htot & Hvis).
    { simpl in Hfuel. lia. }
    { intros i j. rewrite (same_graph_conns _ _ _ (proj1 Hm1)). apply Hclosed. }
    exists h', total'. split_and!; [done| |lia|].
    + by eapply marks_trans.
    + intros s j [->|Hs]%elem_of_cons Hj Hlt.
      * apply Hm. by apply Hvis1.
      * apply (Hvis s j); [by apply Hst1| |].
        -- by rewrite (same_graph_conns _ _ _ (proj1 Hm1)).
        -- destruct Hm1 as [[-> _] _]. done.
Qed.

Lemma depth_first_search_spec fuel h start c :
  (length h ≤ fuel)%nat →
  (∀ i j, j ∈ conns h i → j ∈ nodes) →
  start ∈ nodes → h !! start = Some c → visited c = false →
  ∃ h' total,
    _depth_first_search fuel start h = Some (h', total) ∧
    marks h h' ∧
    total = marked_population h' nodes - marked_population h nodes ∧
    is_visited h' start = true ∧
    (∀ j, j ∈ conns h start → (j < length h)%nat → is_visited h' j = true).
Proof.
  intros Hfuel Hclosed Hin Hc Hv. unfold _depth_first_search. rewrite Hc, Hv.
  pose proof (mark_marks _ _ _ Hc) as Hm1.
  pose proof (mark_unvisited _ _ _ Hc Hv) as Hu.
  pose proof (mark_population _ _ _ nodes Hc Hv nodes_nodup Hin) as Hp.
  pose proof (unvisited_le h) as Hle.
  destruct (dfs_loop_spec fuel (<[start := set_visited true c]> h)
              (population c) [start])
    as (h' & total & Hloop & Hm & Htot & Hvis).
  { simpl. lia. }
  { intros i j. rewrite (same_graph_conns _ _ _ (proj1 Hm1)). apply Hclosed. }
  exists h', total. split_and!; [done| |lia| |].
  - by eapply marks_trans.
  - apply Hm. rewrite is_visited_insert by done. by rewrite decide_True.
  - intros j Hj Hlt. apply (Hvis start j); [left| |].
    + by rewrite (same_graph_conns _ _ _ (proj1 Hm1)).
    + by rewrite length_insert.
Qed.

(** Where every connection of [start] is [start] itself, the search
    marks [start] and nothing else. *)
Lemma dfs_neighbors_idle ns h total stack :
  (∀ n, n ∈ ns → is_visited h n = true) →
  dfs_neighbors ns h total stack = (h, total, stack).
Proof.
  induction ns as [|n ns IH]; intros Hvis; [done|]. simpl.
  pose proof (Hvis n ltac:(left)) as Hn. unfold is_visited in Hn.
  destruct (h !! n) as [c|]; [|done]. rewrite Hn.
  apply IH. intros m Hm. apply Hvis. by right.
Qed.

Lemma depth_first_search_isolated fuel h start c :
  (0 < fuel)%nat → h !! start = Some c → visited c = false →
  (∀ j, j ∈ conns h start → j = start) →
  ∃ total, _depth_first_search fuel start h
           = Some (<[start := set_visited true c]> h, total).
Proof.
  intros Hfuel Hc Hv Hloops. unfold _depth_first_search. rewrite Hc, Hv.
  destruct fuel as [|fuel]; [lia|]. simpl.
  rewrite dfs_neighbors_idle.
  - destruct fuel; simpl; eauto.
  - intros n Hn. rewrite is_visited_insert by done.
    rewrite (same_graph_conns _ _ _ (set_visited_same _ _ _ true Hc)) in Hn.
    rewrite decide_True; [done|]. by apply Hloops.
Qed.
End dfs_facts.

(** ** The loops over the list of cities *)

Lemma py_sum_app l1 l2 : py_sum (l1 ++ l2) = py_sum l1 + py_sum l2.
Proof. unfold py_sum. induction l1 as [|x l1 IH]; simpl; lia. Qed.

Section loops.
Variable nodes : list nat.
Variable fuel : nat.
Implicit Types (h : heap) (cs : list nat).

Lemma populations_loop_spec cs : ∀ h acc,
  graph_ok h nodes → (length h ≤ fuel)%nat → (∀ r, r ∈ cs → r ∈ nodes) →
  ∃ h' pops,
    populations_loop fuel cs h acc = Some (h', pops) ∧
    marks h h' ∧
    py_sum pops - py_sum acc
      = marked_population h' nodes - marked_population h nodes ∧
    (∀ r, r ∈ cs → is_visited h' r = true).
Proof.
  induction cs as [|city cs IH]; intros h acc Hok Hfuel Hcs.
  - exists h, acc. split_and!; [done|apply marks_refl|lia|].
    by intros r ?%elem_of_nil.
  - assert (∀ r, r ∈ cs → r ∈ nodes) as Hcs' by (intros r ?; apply Hcs; by right).
    pose proof (Hcs city ltac:(left)) as Hcity.
    destruct (lookup_lt_is_Some_2 h city (g_valid _ _ Hok _ Hcity)) as [c Hc].
    simpl. rewrite Hc. destruct (visited c) eqn:Hv.
    + destruct (IH h acc Hok Hfuel Hcs') as (h' & pops & Hrun & Hm & Hsum & Hvis).
      exists h', pops. split_and!; [done..|].
      intros r [->|Hr]%elem_of_cons; [|by apply Hvis].
      apply Hm. unfold is_visited. by rewrite Hc.
    + destruct (depth_first_search_spec nodes (g_nodup _ _ Hok) fuel h city c)
        as (h1 & total & Hdfs & Hm1 & Htot & Hstart & _); [done| |done..|].
      { intros i j Hj. by eapply g_closed. }
      rewrite Hdfs.
      destruct (IH h1 (acc ++ [total])) as (h' & pops & Hrun & Hm & Hsum & Hvis);
        [by eapply same_graph_ok, Hok; apply Hm1| |done|].
      { destruct Hm1 as [[-> _] _]. done. }
      exists h', pops. rewrite py_sum_app in Hsum. simpl in Hsum.
      split_and!; [done| |lia|].
      * by eapply marks_trans.
      * intros r [->|Hr]%elem_of_cons; [by apply Hm | by apply Hvis].
Qed.

Lemma islands_inv_step h h1 num city c total :
  graph_ok h nodes → (length h ≤ fuel)%nat → city ∈ nodes →
  h !! city = Some c → visited c = false →
  _depth_first_search fuel city h = Some (h1, total) →
  marks h h1 → is_visited h1 city = true →
  (∀ j, j ∈ conns h city → (j < length h)%nat → is_visited h1 j = true) →
  islands_inv nodes h num → islands_inv nodes h1 (num + 1).
Proof.
  intros Hok Hfuel Hcity Hc Hv Hdfs Hm Hstart Hneigh (J1 & J2 & J3).
  assert (is_visited h city = false) as Hcv by (unfold is_visited; by rewrite Hc).
  pose proof (marked_count_new1 h h1 nodes city Hm Hcity Hcv Hstart) as Hnew.
  split_and!.
  - lia.
  - intros (x & y & Hx & Hy & Hxy).
    rewrite (same_graph_conns _ _ _ (proj1 Hm)) in Hy.
    destruct (g_closed _ _ Hok _ _ Hy) as [Hxin Hyin].
    destruct (is_visited h x) eqn:Hxv.
    { assert (num < Z.of_nat (marked_count h nodes)) by (apply J2; eauto). lia. }
    destruct (decide (x = city)) as [->|Hne].
    + pose proof (Hneigh y Hy (g_valid _ _ Hok _ Hyin)) as Hyv1.
      destruct (is_visited h y) eqn:Hyv.
      * assert (num < Z.of_nat (marked_count h nodes)); [|lia].
        apply J2. exists y, city. split_and!; [done| |done].
        by eapply g_sym.
      * pose proof (marked_count_new2 h h1 nodes city y Hm (not_eq_sym Hxy)
                      Hcity Hyin Hcv Hstart Hyv Hyv1). lia.
    + pose proof (marked_count_new2 h h1 nodes city x Hm (not_eq_sym Hne)
                    Hcity Hxin Hcv Hstart Hxv Hx). lia.
  - intros Hloops.
    assert (∀ i j, j ∈ conns h i → j = i) as Hloops'.
    { intros i j Hj. apply Hloops. by rewrite (same_graph_conns _ _ _ (proj1 Hm)). }
    destruct (depth_first_search_isolated fuel h city c) as [t Hiso];
      [apply lookup_lt_Some in Hc; lia|done|done|by apply Hloops'|].
    rewrite Hiso in Hdfs. inversion Hdfs; subst h1.
    rewrite (mark_count _ _ _ _ Hc Hv (g_nodup _ _ Hok) Hcity).
    rewrite (J3 Hloops'). lia.
Qed.

Lemma islands_loop_spec cs : ∀ h num,
  graph_ok h nodes → (length h ≤ fuel)%nat → (∀ r, r ∈ cs → r ∈ nodes) →
  islands_inv nodes h num →
  ∃ h' num',
    islands_loop fuel cs h num = Some (h', num') ∧
    marks h h' ∧
    (∀ r, r ∈ cs → is_visited h' r = true) ∧
    islands_inv nodes h' num'.
Proof.
  induction cs as [|city cs IH]; intros h num Hok Hfuel Hcs Hinv.
  - exists h, num. split_and!; [done|apply marks_refl| |done].
    by intros r ?%elem_of_nil.
  - assert (∀ r, r ∈ cs → r ∈ nodes) as Hcs' by (intros r ?; apply Hcs; by right).
    pose proof (Hcs city ltac:(left)) as Hcity.
    destruct (lookup_lt_is_Some_2 h city (g_valid _ _ Hok _ Hcity)) as [c Hc].
    simpl. rewrite Hc. destruct (visited c) eqn:Hv.
    + destruct (IH h num Hok Hfuel Hcs' Hinv) as (h' & num' & Hrun & Hm & Hvis & Hinv').
      exists h', num'. split_and!; [done..| |done].
      intros r [->|Hr]%elem_of_cons; [|by apply Hvis].
      apply Hm. unfold is_visited. by rewrite Hc.
    + destruct (depth_first_search_spec nodes (g_nodup _ _ Hok) fuel h city c)
        as (h1 & total & Hdfs & Hm1 & Htot & Hstart & Hneigh); [done| |done..|].
      { intros i j Hj. by eapply g_closed. }
      rewrite Hdfs.
      destruct (IH h1 (num + 1)) as (h' & num' & Hrun & Hm & Hvis & Hinv');
        [by eapply same_graph_ok, Hok; apply Hm1| |done| |].
      { destruct Hm1 as [[-> _] _]. done. }
      { by eapply islands_inv_step. }
      exists h', num'. split_and!; [done| | |done].
      * by eapply marks_trans.
      * intros r [->|Hr]%elem_of_cons; [by apply Hm | by apply Hvis].
Qed.
End loops.

(** ** Paths *)

Section walks.
Variable h : heap.

Lemma walk_zero a b : walk h a 0 b → b = a.
Proof. by inversion 1. Qed.

Lemma walk_last a k c :
  walk h a (S k) c → ∃ b, walk h a k b ∧ c ∈ conns h b.
Proof. inversion 1; subst. eauto. Qed.

Lemma walk_cons a b k c : b ∈ conns h a → walk h b k c → walk h a (S k) c.
Proof.
  intros Hab Hw. induction Hw as [|k x y Hw IH Hxy].
  - eapply walk_step; [apply walk_here | done].
  - eapply walk_step; done.
Qed.

Lemma walk_rev a k b :
  (∀ i j, j ∈ conns h i → i ∈ conns h j) → walk h a k b → walk h b k a.
Proof.
  intros Hsym Hw. induction Hw as [|k x y Hw IH Hxy].
  - apply walk_here.
  - eapply walk_cons; [by apply Hsym | done].
Qed.

Lemma shortest_unique a b k k' : shortest h a b k → shortest h a b k' → k = k'.
Proof. intros [Hw Hmin] [Hw' Hmin']. apply Nat.le_antisymm; auto. Qed.

Lemma shortest_rev a b k :
  (∀ i j, j ∈ conns h i → i ∈ conns h j) → shortest h a b k → shortest h b a k.
Proof.
  intros Hsym [Hw Hmin]. split; [by apply walk_rev|].
  intros m Hm. by apply Hmin, walk_rev.
Qed.
End walks.

(** ** Breadth-first search *)

Section bfs_facts.
Variables (h : heap) (start_city end_city : nat).
Hypothesis distinct : start_city ≠ end_city.
Hypothesis live : ∀ i j, j ∈ conns h i → (j < length h)%nat.
Hypothesis start_live : (start_city < length h)%nat.

Local Abbreviation inv := (bfs_inv h start_city end_city).
Local Abbreviation answer := (bfs_answer h start_city end_city).

Lemma bfs_inv_init : inv 0 [] {[start_city]} [(start_city, 0)].
Proof.
  split.
  - by apply elem_of_singleton.
  - by intros ?%elem_of_singleton.
  - intros v ->%elem_of_singleton. done.
  - intros c d [= -> ->]%list_elem_of_singleton.
    split; [by apply elem_of_singleton|].
    exists 0%nat. split; [done|]. split; [apply walk_here | lia].
  - by intros c ?%elem_of_nil.
  - exists [(start_city, 0)], []. split_and!; [done| |by intros x ?%elem_of_nil].
    by intros x ->%list_elem_of_singleton.
  - intros v n ->%elem_of_singleton Hq. exfalso. apply Hq. simpl. left.
  - intros u m _ Hm. lia.
Qed.

(** Every node within [k] edges of the start has been seen. *)
Lemma bfs_inv_within k pending seen queue u m :
  inv k pending seen queue → walk h start_city m u → (m ≤ k)%nat → u ∈ seen.
Proof.
  intros Hinv Hw Hm. destruct m as [|m].
  - apply walk_zero in Hw as ->. apply Hinv.
  - apply walk_last in Hw as (w & Hw & Hu).
    destruct (inv_done _ _ _ _ _ _ _ Hinv w m Hw ltac:(lia)) as (Hs & Hq & Hp).
    by eapply inv_closed.
Qed.

Lemma bfs_inv_next k pending seen queue c n :
  inv k pending seen queue → c ∈ pending → n ∈ conns h c →
  walk h start_city (S k) n ∧
  (n ∉ seen → ∀ m, walk h start_city m n → (S k ≤ m)%nat).
Proof.
  intros Hinv Hc Hn.
  destruct (inv_pending _ _ _ _ _ _ _ Hinv c Hc) as (_ & Hw & _).
  split; [by eapply walk_step|].
  intros Hnot m Hm. destruct (decide (m ≤ k)%nat) as [Hle|]; [|lia].
  exfalso. apply Hnot. by eapply bfs_inv_within.
Qed.

(** Taking the next node off the queue. *)
Lemma bfs_inv_pop k seen c d queue :
  inv k [] seen ((c, d) :: queue) →
  ∃ k', d = Z.of_nat k' ∧ inv k' [c] seen queue.
Proof.
  intros Hinv.
  destruct (inv_queue _ _ _ _ _ _ _ Hinv c d ltac:(left)) as (Hc & m & -> & Hsh).
  exists m. split; [done|].
  assert (∀ v, v ∉ queue.*1 → v ∉ [c] → v ∉ ((c, Z.of_nat m) :: queue).*1) as Hout.
  { intros v Hq Hp. rewrite fmap_cons. simpl. rewrite not_elem_of_cons.
    split; [|done]. intros ->. apply Hp. left. }
  destruct (inv_levels _ _ _ _ _ _ _ Hinv) as (q1 & q2 & Hq & H1 & H2).
  destruct q1 as [|x q1]; simpl in Hq.
  - (* the level [k] is exhausted *)
    subst q2. assert (Z.of_nat m = Z.of_nat k + 1) as Hm by (apply (H2 (c, _)); left).
    assert (m = S k) as -> by lia.
    split; try apply Hinv.
    + intros c' d' Hin. apply (inv_queue _ _ _ _ _ _ _ Hinv). by right.
    + intros c' ->%list_elem_of_singleton. done.
    + exists queue, []. split_and!; [by rewrite app_nil_r| |by intros x ?%elem_of_nil].
      intros x Hx. rewrite Hm. apply H2. by right.
    + intros v n Hv Hq Hp. apply (inv_closed _ _ _ _ _ _ _ Hinv); [done| |apply not_elem_of_nil].
      by apply Hout.
    + intros u j Hw Hj.
      assert (u ∈ seen) as Hu by (eapply bfs_inv_within; [done..|lia]).
      assert (u ∉ ((c, Z.of_nat (S k)) :: queue).*1) as Hnq.
      { intros ((u' & d') & -> & Hin)%list_elem_of_fmap. simpl in *.
        destruct (inv_queue _ _ _ _ _ _ _ Hinv _ _ Hin) as (_ & m' & -> & _ & Hmin).
        specialize (H2 _ Hin). simpl in H2.
        specialize (Hmin _ Hw). lia. }
      rewrite fmap_cons, not_elem_of_cons in Hnq. simpl in Hnq.
      split_and!; [done|tauto|]. rewrite list_elem_of_singleton. tauto.
  - (* the level [k] goes on *)
    inversion Hq; subst x queue.
    assert (Z.of_nat m = Z.of_nat k) as Hm by (apply (H1 (c, _)); left).
    assert (m = k) as -> by lia.
    split; try apply Hinv.
    + intros c' d' Hin. apply (inv_queue _ _ _ _ _ _ _ Hinv). by right.
    + intros c' ->%list_elem_of_singleton. done.
    + exists q1, q2. split_and!; [done| |done].
      intros x Hx. apply H1. by right.
    + intros v n Hv Hq' Hp. apply (inv_closed _ _ _ _ _ _ _ Hinv); [done| |apply not_elem_of_nil].
      by apply Hout.
    + intros u j Hw Hj.
      destruct (inv_done _ _ _ _ _ _ _ Hinv u j Hw Hj) as (Hu & Hnq & _).
      rewrite fmap_cons, not_elem_of_cons in Hnq. simpl in Hnq.
      split_and!; [done|tauto|]. rewrite list_elem_of_singleton. tauto.
Qed.

Lemma bfs_inv_size k pending seen queue :
  inv k pending seen queue → (size seen ≤ length h)%nat.
Proof.
  intros Hinv. rewrite <- (size_set_seq (C:=gset nat) 0 (length h)).
  apply subseteq_size. intros v Hv. apply elem_of_set_seq.
  pose proof (inv_live _ _ _ _ _ _ _ Hinv v Hv). lia.
Qed.

(** Putting a newly found node on the queue. *)
Lemma bfs_inv_push k c seen queue n :
  inv k [c] seen queue → n ∈ conns h c → n ≠ end_city → n ∉ seen →
  inv k [c] ({[n]} ∪ seen) (queue ++ [(n, Z.of_nat k + 1)]).
Proof.
  intros Hinv Hn Hne Hnew.
  destruct (bfs_inv_next _ _ _ _ c n Hinv ltac:(left) Hn) as [Hw Hmin].
  split.
  - apply elem_of_union. right. apply Hinv.
  - intros [->%elem_of_singleton|Hin]%elem_of_union; [done|].
    by apply (inv_end _ _ _ _ _ _ _ Hinv).
  - intros v [->%elem_of_singleton|Hv]%elem_of_union.
    + by eapply live.
    + by eapply inv_live.
  - intros c' d' [Hin|[= -> ->]%list_elem_of_singleton]%elem_of_app.
    + destruct (inv_queue _ _ _ _ _ _ _ Hinv _ _ Hin) as [? ?].
      split; [|done]. apply elem_of_union. by right.
    + split; [apply elem_of_union; left; by apply elem_of_singleton|].
      exists (S k). split; [lia|]. split; auto.
  - intros c' Hc'. destruct (inv_pending _ _ _ _ _ _ _ Hinv _ Hc') as [? ?].
    split; [|done]. apply elem_of_union. by right.
  - destruct (inv_levels _ _ _ _ _ _ _ Hinv) as (q1 & q2 & -> & H1 & H2).
    exists q1, (q2 ++ [(n, Z.of_nat k + 1)]).
    split_and!; [by rewrite app_assoc|done|].
    intros x [?| ->%list_elem_of_singleton]%elem_of_app; [auto|done].
  - intros v x Hv Hq Hp Hx. rewrite fmap_app, not_elem_of_app in Hq.
    destruct Hq as [Hq Hvn]. simpl in Hvn. rewrite list_elem_of_singleton in Hvn.
    apply elem_of_union in Hv as [->%elem_of_singleton|Hv]; [done|].
    apply elem_of_union. right. by eapply inv_closed.
  - intros u m Hu Hm.
    destruct (inv_done _ _ _ _ _ _ _ Hinv u m Hu Hm) as (Hs & Hq & Hp).
    split_and!; [apply elem_of_union; by right| |done].
    rewrite fmap_app, not_elem_of_app. split; [done|]. simpl.
    rewrite list_elem_of_singleton. by intros ->.
Qed.

(** All connections of the pending node have been scanned. *)
Lemma bfs_inv_finish k c seen queue :
  inv k [c] seen queue → (∀ n, n ∈ conns h c → n ∈ seen) →
  inv k [] seen queue.
Proof.
  intros Hinv Hall. split; try apply Hinv.
  - by intros c' ?%elem_of_nil.
  - intros v n Hv Hq _ Hn. destruct (decide (v = c)) as [->|Hne]; [by apply Hall|].
    eapply (inv_closed _ _ _ _ _ _ _ Hinv); [done..| |done].
    by rewrite list_elem_of_singleton.
  - intros u m Hu Hm. destruct (inv_done _ _ _ _ _ _ _ Hinv u m Hu Hm) as (? & ? & ?).
    split_and!; [done..|apply not_elem_of_nil].
Qed.

Lemma bfs_neighbors_spec k c ns : ∀ seen queue,
  inv k [c] seen queue → (∀ n, n ∈ ns → n ∈ conns h c) →
  match bfs_neighbors end_city (Z.of_nat k) ns seen queue with
  | inl r => r = Z.of_nat (S k) ∧ end_city ∈ conns h c
  | inr (seen', queue') =>
      inv k [c] seen' queue' ∧
      (∀ n, n ∈ ns → n ∈ seen') ∧ seen ⊆ seen' ∧
      (length queue' + size seen = length queue + size seen')%nat
  end.
Proof.
  induction ns as [|n ns IH]; intros seen queue Hinv Hns; simpl.
  - split_and!; [done| |done|done]. by intros n ?%elem_of_nil.
  - assert (∀ m, m ∈ ns → m ∈ conns h c) as Hns' by (intros m ?; apply Hns; by right).
    pose proof (Hns n ltac:(left)) as Hn.
    destruct (decide (n = end_city)) as [->|Hne]; [split; [lia|done]|].
    destruct (decide (n ∈ seen)) as [Hseen|Hnew].
    + specialize (IH seen queue Hinv Hns').
      destruct (bfs_neighbors end_city (Z.of_nat k) ns seen queue)
        as [r|[seen' queue']]; [done|].
      destruct IH as (Hinv' & Hall & Hsub & Hsize).
      split_and!; [done| |done..].
      intros m [->|Hm]%elem_of_cons; [by apply Hsub | auto].
    + pose proof (bfs_inv_push _ _ _ _ n Hinv Hn Hne Hnew) as Hinv1.
      specialize (IH _ _ Hinv1 Hns').
      destruct (bfs_neighbors end_city (Z.of_nat k) ns ({[n]} ∪ seen)
                  (queue ++ [(n, Z.of_nat k + 1)]))
        as [r|[seen' queue']]; [done|].
      destruct IH as (Hinv' & Hall & Hsub & Hsize).
      rewrite length_app, size_union, size_singleton in Hsize
        by (by apply disjoint_singleton_l).
      simpl in Hsize.
      assert (n ∈ seen') as Hn'
        by (apply Hsub, elem_of_union; left; by apply elem_of_singleton).
      split_and!; [done| | |lia].
      * intros m [->|Hm]%elem_of_cons; [done | auto].
      * intros x Hx. apply Hsub, elem_of_union. by right.
Qed.

Lemma bfs_loop_spec fuel : ∀ k seen queue,
  inv k [] seen queue →
  (length queue + length h ≤ fuel + size seen)%nat →
  ∃ r, bfs_loop fuel h end_city seen queue = Some r ∧ answer r.
Proof.
  assert (∀ k seen, inv k [] seen [] → answer (-1)) as Hempty.
  { intros k seen Hinv. right. split; [done|]. intros [m Hw].
    apply (inv_end _ _ _ _ _ _ _ Hinv).
    assert (∀ j u, walk h start_city j u → u ∈ seen) as Hall; [|by eapply Hall].
    intros j u Hu. induction Hu as [|j b c' Hu IH Hc].
    - apply Hinv.
    - eapply (inv_closed _ _ _ _ _ _ _ Hinv); [exact IH| | |done]; apply not_elem_of_nil. }
  induction fuel as [|fuel IH]; intros k seen queue Hinv Hfuel;
    pose proof (bfs_inv_size _ _ _ _ Hinv) as Hsize.
  - destruct queue as [|x queue]; [|simpl in Hfuel; lia].
    exists (-1). split; [done|]. by eapply Hempty.
  - destruct queue as [|[c d] queue].
    { exists (-1). split; [done|]. by eapply Hempty. }
    destruct (bfs_inv_pop _ _ _ _ _ Hinv) as (k' & -> & Hinv1).
    simpl.
    pose proof (bfs_neighbors_spec k' c (conns h c) seen queue Hinv1
                  ltac:(done)) as Hscan.
    destruct (bfs_neighbors end_city (Z.of_nat k') (conns h c) seen queue)
      as [r|[seen' queue']].
    + destruct Hscan as [-> Hend]. exists (Z.of_nat (S k')). split; [done|].
      left. exists (S k'). split; [done|].
      destruct (bfs_inv_next _ _ _ _ c end_city Hinv1 ltac:(left) Hend) as [Hw Hmin].
      split; [done|]. apply Hmin, Hinv1.
    + destruct Hscan as (Hinv' & Hall & Hsub & Hlen).
      apply (IH k').
      * by eapply bfs_inv_finish.
      * simpl in Hfuel. lia.
Qed.
End bfs_facts.

(** ** The registry after the population lines *)

Section registry_facts.
Implicit Types (es : list (string * Z)) (k n : string).

Lemma elem_of_first_occurrences ks k : k ∈ first_occurrences ks ↔ k ∈ ks.
Proof.
  induction ks as [|x ks IH]; [done|]. simpl.
  rewrite !elem_of_cons, list_elem_of_filter, IH.
  destruct (decide (k = x)) as [->|Hne]; [split; by left|].
  split.
  - intros [?|[_ ?]]; [done | by right].
  - intros [?|?]; [done | right; by split].
Qed.

Lemma first_occurrences_snoc ks n :
  first_occurrences (ks ++ [n])
  = if decide (n ∈ ks) then first_occurrences ks else first_occurrences ks ++ [n].
Proof.
  induction ks as [|x ks IH]; [done|].
  cbn [app first_occurrences]. rewrite IH.
  destruct (decide (n ∈ ks)) as [Hin|Hin].
  - rewrite decide_True by (by right). done.
  - rewrite filter_app. destruct (decide (n = x)) as [->|Hne].
    + rewrite decide_True by left.
      rewrite (filter_cons_False _ x) by (intros ?; done).
      by rewrite filter_nil, app_nil_r.
    + rewrite decide_False by (rewrite not_elem_of_cons; done).
      rewrite (filter_cons_True _ n) by done. by rewrite filter_nil.
Qed.

Lemma first_occurrences_NoDup ks : NoDup (first_occurrences ks).
Proof.
  induction ks as [|x ks IH]; simpl; [apply NoDup_nil_2|].
  apply NoDup_cons. split; [|by apply NoDup_filter].
  rewrite list_elem_of_filter. by intros [? _].
Qed.

Lemma last_value_snoc es n p k :
  last_value k (es ++ [(n, p)])
  = if decide (n = k) then Some p else last_value k es.
Proof.
  induction es as [|[k' p'] es IH]; simpl.
  - done.
  - rewrite IH. destruct (decide (n = k)); [done|].
    by destruct (last_value k es).
Qed.

Lemma population_fold ls st :
  foldl population_step st ls
  = foldl register_entry st (omap parse_population ls).
Proof.
  revert st. induction ls as [|l ls IH]; intros st; [done|].
  simpl. unfold population_step at 2.
  destruct (parse_population l) as [[n p]|]; simpl; apply IH.
Qed.

Lemma after_population_entries pop_data :
  after_population pop_data
  = foldl register_entry empty_state (population_entries pop_data).
Proof. apply population_fold. Qed.

Lemma setitem_elem_of_ne (d : Py.dict) k (v : nat) k' v' :
  NoDup d.*1 → (k', v') ∈ Py.setitem k v d →
  (k' = k ∧ v' = v) ∨ ((k', v') ∈ d ∧ k' ≠ k).
Proof.
  intros Hnd Hin.
  apply (elem_of_get _ _ _ (setitem_keys_NoDup _ k v Hnd)) in Hin.
  rewrite setitem_get in Hin. destruct (decide (k = k')) as [->|Hne].
  - left. by inversion Hin.
  - right. split; [by apply get_elem_of | done].
Qed.

(** The registry lists each declared name once, where it first occurs,
    bound to the object made for its last declaration. *)
Lemma registry_entries es :
  (city_map (foldl register_entry empty_state es)).*1 = first_occurrences es.*1 ∧
  ∀ k v, (k, v) ∈ city_map (foldl register_entry empty_state es) →
    ∃ c, objects (foldl register_entry empty_state es) !! v = Some c ∧
         name c = k ∧ last_value k es = Some (population c).
Proof.
  induction es as [|[n p] es IH] using rev_ind.
  - split; [done|]. by intros k v ?%elem_of_nil.
  - rewrite foldl_app. cbn [foldl]. destruct IH as [IHk IHv].
    set (st := foldl register_entry empty_state es) in *.
    unfold register_entry, register_city. cbn [city_map objects fst snd].
    split.
    + rewrite setitem_keys, fmap_app. change ([(n, p)].*1) with [n].
      rewrite first_occurrences_snoc, IHk.
      destruct (decide (n ∈ es.*1)) as [Hin|Hin].
      * rewrite decide_True; [done|]. by apply elem_of_first_occurrences.
      * rewrite decide_False; [done|]. by rewrite elem_of_first_occurrences.
    + intros k v [[-> ->]|[Hin Hne]]%setitem_elem_of_ne;
        [| |rewrite IHk; apply first_occurrences_NoDup].
      * exists (City_init n p). split_and!; [|done|].
        -- rewrite lookup_app_r by done. by rewrite Nat.sub_diag.
        -- rewrite last_value_snoc. by rewrite decide_True.
      * destruct (IHv _ _ Hin) as (c & Hc & Hn & Hl).
        exists c. split_and!; [by apply lookup_app_l_Some|done|].
        rewrite last_value_snoc. by rewrite decide_False.
Qed.

Lemma registered_iff pop_data k :
  is_Some (Py.get k (city_map (after_population pop_data)))
  ↔ k ∈ (population_entries pop_data).*1.
Proof.
  rewrite get_is_Some, after_population_entries.
  destruct (registry_entries (population_entries pop_data)) as [-> _].
  apply elem_of_first_occurrences.
Qed.
End registry_facts.

(** ** Texts as sequences of lines *)

Section text_facts.
Implicit Types (l rest : string) (ls : list string).

Lemma split_newline_cons a s :
  a ≠ "010"%char →
  Py.split newline (String a s) = Py.cons_head a (Py.split newline s).
Proof.
  intros Hne. unfold Py.split, newline. cbn [Py.split_from String.prefix].
  destruct (ascii_dec "010" a) as [E|_]; [by subst|done].
Qed.

Lemma split_newline_here s :
  Py.split newline (String "010" s) = EmptyString :: Py.split newline s.
Proof.
  unfold Py.split, newline. cbn [Py.split_from String.prefix].
  destruct (ascii_dec "010" "010") as [_|?]; [|done].
  by destruct s.
Qed.

Lemma single_line_cons a l :
  single_line (String a l) → a ≠ "010"%char ∧ single_line l.
Proof.
  unfold single_line. simpl. destruct (Ascii.eqb a "010") eqn:E; [done|].
  apply Ascii.eqb_neq in E. done.
Qed.

Lemma split_single l : single_line l → Py.split newline l = [l].
Proof.
  induction l as [|a l IH]; [done|].
  intros [Hne Hl]%single_line_cons.
  rewrite split_newline_cons by done. by rewrite IH.
Qed.

Lemma split_line_cons l rest :
  single_line l →
  Py.split newline (l +:+ newline +:+ rest) = l :: Py.split newline rest.
Proof.
  induction l as [|a l IH].
  - intros _. apply split_newline_here.
  - intros [Hne Hl]%single_line_cons.
    change (String a l +:+ newline +:+ rest)
      with (String a (l +:+ newline +:+ rest)).
    rewrite split_newline_cons by done. by rewrite IH.
Qed.

Lemma lines_join ls :
  ls ≠ [] → Forall single_line ls → lines (Py.join newline ls) = ls.
Proof.
  unfold lines. induction ls as [|l ls IH]; [done|].
  intros _ [Hl Hls]%Forall_cons. destruct ls as [|l' ls].
  - by apply split_single.
  - cbn [Py.join]. rewrite split_line_cons by done.
    f_equal. by apply IH.
Qed.

Lemma fold_lines {S} (step : S → string → S) ls st :
  (∀ st, step st EmptyString = st) → Forall single_line ls →
  foldl step st (lines (Py.join newline ls)) = foldl step st ls.
Proof.
  intros Hblank Hls. destruct ls as [|l ls].
  - simpl. apply Hblank.
  - by rewrite lines_join.
Qed.

Lemma fold_drop {S} (step : S → string → S) ls1 bad ls2 st :
  step (foldl step st ls1) bad = foldl step st ls1 →
  foldl step st (ls1 ++ bad :: ls2) = foldl step st (ls1 ++ ls2).
Proof. intros Hbad. rewrite !foldl_app. simpl. by rewrite Hbad. Qed.


Lemma road_step_blank st : road_step st EmptyString = st.
Proof. reflexivity. Qed.


Lemma after_roads_join pop_data ls :
  Forall single_line ls →
  after_roads pop_data (Py.join newline ls)
  = foldl road_step (after_population pop_data) ls.
Proof. intros Hls. apply fold_lines; [apply road_step_blank | done]. Qed.

Lemma Forall_drop (P : string → Prop) ls1 bad ls2 :
  Forall P (ls1 ++ bad :: ls2) → Forall P (ls1 ++ ls2).
Proof.
  rewrite !Forall_app, Forall_cons. tauto.
Qed.
End text_facts.

(** ** Totality, and stores up to their markers *)

(** Construction always completes: no exception escapes [build_graph]. *)
Lemma build_graph_total pop_data road_data :
  ∃ h nodes, build_graph pop_data road_data = Ok (h, nodes).
Proof. rewrite build_graph_run. eauto. Qed.

Section built_facts.
Implicit Types (h : heap) (nodes : list nat).

Lemma unmarked_same h h' : unmarked h' = unmarked h → same_graph h h'.
Proof.
  intros Heq. split.
  - apply (f_equal length) in Heq. unfold unmarked in Heq.
    by rewrite !length_fmap in Heq.
  - intros i c Hc. apply (f_equal (λ l, l !! i)) in Heq.
    unfold unmarked in Heq. rewrite !list_lookup_fmap, Hc in Heq.
    destruct (h' !! i) as [c'|]; [|done]. exists c'. split; [done|].
    simpl in Heq. inversion Heq. done.
Qed.

Lemma same_unmarked h h' : same_graph h h' → unmarked h' = unmarked h.
Proof.
  intros [Hlen Hs]. apply list_eq. intros i. unfold unmarked.
  rewrite !list_lookup_fmap. destruct (h !! i) as [c|] eqn:Hc.
  - destruct (Hs _ _ Hc) as (c' & -> & Hn & Hp & Hcs). simpl.
    unfold set_visited. by rewrite Hn, Hp, Hcs.
  - apply lookup_ge_None in Hc. rewrite lookup_ge_None_2; [done|lia].
Qed.

Lemma built_ok_graph pop_data road_data h nodes :
  built pop_data road_data h nodes → graph_ok h nodes.
Proof.
  intros (h0 & Hb & Hu). eapply same_graph_ok; [|by eapply built_graph_ok].
  by apply unmarked_same.
Qed.

Lemma built_self pop_data road_data h nodes :
  build_graph pop_data road_data = Ok (h, nodes) → built pop_data road_data h nodes.
Proof. intros Hb. by exists h. Qed.

(** The breadth-first search reads connections only. *)
Lemma bfs_loop_conns fuel h h' e : ∀ seen queue,
  (∀ i, conns h' i = conns h i) →
  bfs_loop fuel h' e seen queue = bfs_loop fuel h e seen queue.
Proof.
  induction fuel as [|fuel IH]; intros seen queue Hc; [done|].
  destruct queue as [|[c d] queue]; [done|]. simpl. rewrite Hc.
  destruct (bfs_neighbors e d (conns h c) seen queue) as [r|[seen' queue']]; [done|].
  by apply IH.
Qed.

Lemma min_highways_conns fuel h h' s e :
  same_graph h h' → min_highways fuel h' s e = min_highways fuel h s e.
Proof.
  intros Hs. unfold min_highways. case_decide; [done|].
  apply bfs_loop_conns. intros i. by apply same_graph_conns.
Qed.

Lemma min_highways_spec fuel h nodes s e :
  graph_ok h nodes → s ∈ nodes → e ∈ nodes → (length h ≤ fuel)%nat →
  ∃ r, min_highways fuel h s e = Some r ∧
       ((∃ k, r = Z.of_nat k ∧ shortest h s e k) ∨
        (r = -1 ∧ ¬ reachable h s e)).
Proof.
  intros Hok Hs He Hfuel. unfold min_highways.
  destruct (decide (s = e)) as [->|Hne].
  - exists 0. split; [done|]. left. exists 0%nat.
    split; [done|]. split; [apply walk_here | lia].
  - assert (∀ i j, j ∈ conns h i → (j < length h)%nat) as Hlive.
    { intros i j Hj. eapply g_valid; [done|]. by eapply g_closed. }
    assert (s < length h)%nat as Hslive by (by eapply g_valid).
    destruct (bfs_loop_spec h s e Hne Hlive Hslive fuel 0 {[s]} [(s, 0)])
      as (r & Hr & Hans).
    + by apply bfs_inv_init.
    + rewrite size_singleton. simpl. lia.
    + exists r. split; [done|]. exact Hans.
Qed.
End built_facts.

(** ** Markers left by earlier calls *)

Section leftover_markers.
Variable nodes : list nat.
Implicit Types (h : heap) (cs ns stack : list nat).

Lemma agree_on_lookup h1 h2 n :
  agree_on nodes h1 h2 →
  match h1 !! n, h2 !! n with
  | Some c1, Some c2 => set_visited false c1 = set_visited false c2
  | None, None => True
  | _, _ => False
  end.
Proof.
  intros [Hu _]. apply (f_equal (λ l, l !! n)) in Hu. unfold unmarked in Hu.
  rewrite !list_lookup_fmap in Hu.
  destruct (h1 !! n), (h2 !! n); simpl in Hu; try done. congruence.
Qed.

Lemma agree_on_conns h1 h2 i : agree_on nodes h1 h2 → conns h1 i = conns h2 i.
Proof.
  intros Ha. pose proof (agree_on_lookup _ _ i Ha) as Hl. unfold conns.
  destruct (h1 !! i), (h2 !! i); try done. by inversion Hl.
Qed.

Lemma unmarked_mark h n c :
  h !! n = Some c → unmarked (<[n := set_visited true c]> h) = unmarked h.
Proof.
  intros Hn. unfold unmarked. rewrite list_fmap_insert.
  apply list_insert_id. by rewrite list_lookup_fmap, Hn.
Qed.

Lemma agree_on_mark h1 h2 n c1 c2 :
  agree_on nodes h1 h2 → h1 !! n = Some c1 → h2 !! n = Some c2 →
  agree_on nodes (<[n := set_visited true c1]> h1) (<[n := set_visited true c2]> h2).
Proof.
  intros [Hu Hv] H1 H2. split.
  - by rewrite !unmarked_mark.
  - intros r Hr. rewrite !is_visited_insert by done. case_decide; auto.
Qed.

Lemma closed_unmarked h h' :
  unmarked h' = unmarked h →
  (∀ i j, j ∈ conns h i → j ∈ nodes) → ∀ i j, j ∈ conns h' i → j ∈ nodes.
Proof.
  intros Hu Hclosed i j. rewrite (same_graph_conns _ _ _ (unmarked_same _ _ Hu)).
  apply Hclosed.
Qed.

Lemma dfs_neighbors_unmarked ns : ∀ h total stack,
  unmarked (dfs_neighbors ns h total stack).1.1 = unmarked h.
Proof.
  induction ns as [|n ns IH]; intros h total stack; simpl; [done|].
  destruct (h !! n) as [c|] eqn:Hn; [|apply IH].
  destruct (visited c); [apply IH|]. by rewrite IH, unmarked_mark.
Qed.

Lemma dfs_loop_unmarked fuel : ∀ h total stack h' total',
  dfs_loop fuel h total stack = Some (h', total') → unmarked h' = unmarked h.
Proof.
  induction fuel as [|fuel IH]; intros h total stack h' total'.
  - destruct stack; [|done]. by intros [= -> _].
  - destruct stack as [|city stack]; [by intros [= -> _]|]. simpl.
    pose proof (dfs_neighbors_unmarked (conns h city) h total stack) as Hu.
    destruct (dfs_neighbors (conns h city) h total stack) as [[h1 total1] stack1].
    intros Hrun%IH. by rewrite Hrun.
Qed.

Lemma depth_first_search_unmarked fuel h start h' total :
  _depth_first_search fuel start h = Some (h', total) → unmarked h' = unmarked h.
Proof.
  unfold _depth_first_search. destruct (h !! start) as [c|] eqn:Hc.
  - destruct (visited c); [by intros [= -> _]|].
    intros Hrun%dfs_loop_unmarked. by rewrite Hrun, unmarked_mark.
  - by intros [= -> _].
Qed.

Lemma dfs_neighbors_agree ns : ∀ h1 h2 total stack,
  agree_on nodes h1 h2 → (∀ n, n ∈ ns → n ∈ nodes) →
  ∃ h1' h2' total' stack',
    dfs_neighbors ns h1 total stack = (h1', total', stack') ∧
    dfs_neighbors ns h2 total stack = (h2', total', stack') ∧
    agree_on nodes h1' h2'.
Proof.
  induction ns as [|n ns IH]; intros h1 h2 total stack Ha Hns; simpl.
  - by exists h1, h2, total, stack.
  - assert (∀ m, m ∈ ns → m ∈ nodes) as Hns' by (intros m ?; apply Hns; by right).
    pose proof (agree_on_lookup _ _ n Ha) as Hl.
    pose proof (proj2 Ha n (Hns n ltac:(left))) as Hv. unfold is_visited in Hv.
    destruct (h1 !! n) as [c1|] eqn:H1, (h2 !! n) as [c2|] eqn:H2; try done.
    + rewrite <- Hv. destruct (visited c1); [by apply IH|].
      assert (population c1 = population c2) as -> by (by inversion Hl).
      apply IH; [|done]. by apply agree_on_mark.
    + by apply IH.
Qed.

Lemma dfs_loop_agree fuel : ∀ h1 h2 total stack,
  agree_on nodes h1 h2 → (∀ i j, j ∈ conns h1 i → j ∈ nodes) →
  same_outcome nodes (dfs_loop fuel h1 total stack) (dfs_loop fuel h2 total stack).
Proof.
  induction fuel as [|fuel IH]; intros h1 h2 total stack Ha Hclosed.
  - by destruct stack.
  - destruct stack as [|city stack]; [done|]. simpl.
    rewrite <- (agree_on_conns _ _ city Ha).
    pose proof (dfs_neighbors_unmarked (conns h1 city) h1 total stack) as Hu.
    destruct (dfs_neighbors_agree (conns h1 city) h1 h2 total stack Ha (Hclosed city))
      as (h1' & h2' & total' & stack' & Hr1 & -> & Ha').
    rewrite Hr1 in Hu |- *. apply IH; [done|]. by eapply closed_unmarked.
Qed.

Lemma depth_first_search_agree fuel h1 h2 start :
  agree_on nodes h1 h2 → (∀ i j, j ∈ conns h1 i → j ∈ nodes) → start ∈ nodes →
  same_outcome nodes (_depth_first_search fuel start h1)
    (_depth_first_search fuel start h2).
Proof.
  intros Ha Hclosed Hstart. unfold _depth_first_search.
  pose proof (agree_on_lookup _ _ start Ha) as Hl.
  pose proof (proj2 Ha start Hstart) as Hv. unfold is_visited in Hv.
  destruct (h1 !! start) as [c1|] eqn:H1, (h2 !! start) as [c2|] eqn:H2; try done.
  rewrite <- Hv. destruct (visited c1); [done|].
  assert (population c1 = population c2) as -> by (by inversion Hl).
  apply dfs_loop_agree; [by apply agree_on_mark|].
  eapply closed_unmarked; [|done]. by apply unmarked_mark.
Qed.

Lemma islands_loop_agree fuel cs : ∀ h1 h2 num,
  agree_on nodes h1 h2 → (∀ i j, j ∈ conns h1 i → j ∈ nodes) →
  (∀ r, r ∈ cs → r ∈ nodes) →
  same_outcome nodes (islands_loop fuel cs h1 num) (islands_loop fuel cs h2 num).
Proof.
  induction cs as [|city cs IH]; intros h1 h2 num Ha Hclosed Hcs; [done|].
  assert (∀ r, r ∈ cs → r ∈ nodes) as Hcs' by (intros r ?; apply Hcs; by right).
  pose proof (Hcs city ltac:(left)) as Hcity.
  pose proof (agree_on_lookup _ _ city Ha) as Hl.
  pose proof (proj2 Ha city Hcity) as Hv. unfold is_visited in Hv.
  pose proof (depth_first_search_agree fuel h1 h2 city Ha Hclosed Hcity) as Hdfs.
  simpl. destruct (h1 !! city) as [c1|] eqn:H1, (h2 !! city) as [c2|] eqn:H2;
    try done; [|by apply IH].
  rewrite <- Hv. destruct (visited c1); [by apply IH|].
  destruct (_depth_first_search fuel city h1) as [[h1' t1]|] eqn:Hr1,
           (_depth_first_search fuel city h2) as [[h2' t2]|]; try done.
  destruct Hdfs as [Ha' _]. apply IH; [done| |done].
  eapply closed_unmarked; [|done]. by eapply depth_first_search_unmarked.
Qed.

Lemma populations_loop_agree fuel cs : ∀ h1 h2 acc,
  agree_on nodes h1 h2 → (∀ i j, j ∈ conns h1 i → j ∈ nodes) →
  (∀ r, r ∈ cs → r ∈ nodes) →
  same_outcome nodes (populations_loop fuel cs h1 acc)
    (populations_loop fuel cs h2 acc).
Proof.
  induction cs as [|city cs IH]; intros h1 h2 acc Ha Hclosed Hcs; [done|].
  assert (∀ r, r ∈ cs → r ∈ nodes) as Hcs' by (intros r ?; apply Hcs; by right).
  pose proof (Hcs city ltac:(left)) as Hcity.
  pose proof (agree_on_lookup _ _ city Ha) as Hl.
  pose proof (proj2 Ha city Hcity) as Hv. unfold is_visited in Hv.
  pose proof (depth_first_search_agree fuel h1 h2 city Ha Hclosed Hcity) as Hdfs.
  simpl. destruct (h1 !! city) as [c1|] eqn:H1, (h2 !! city) as [c2|] eqn:H2;
    try done; [|by apply IH].
  rewrite <- Hv. destruct (visited c1); [by apply IH|].
  destruct (_depth_first_search fuel city h1) as [[h1' t1]|] eqn:Hr1,
           (_depth_first_search fuel city h2) as [[h2' t2]|]; try done.
  destruct Hdfs as [Ha' <-]. apply IH; [done| |done].
  eapply closed_unmarked; [|done]. by eapply depth_first_search_unmarked.
Qed.

Lemma reset_all_agree h1 h2 :
  unmarked h2 = unmarked h1 →
  agree_on nodes (reset_all nodes h1) (reset_all nodes h2).
Proof.
  intros Hu. split.
  - rewrite (same_unmarked _ _ (reset_all_same nodes h1)).
    rewrite (same_unmarked _ _ (reset_all_same nodes h2)). done.
  - intros r Hr. rewrite !reset_all_false; [done|by left..].
Qed.

(** The results of the two island operations do not depend on the markers
    the store comes with. *)
Lemma islands_fresh fuel h1 h2 :
  (∀ i j, j ∈ conns h1 i → j ∈ nodes) → unmarked h2 = unmarked h1 →
  snd <$> number_of_islands fuel nodes h2 = snd <$> number_of_islands fuel nodes h1 ∧
  snd <$> island_populations fuel nodes h2 = snd <$> island_populations fuel nodes h1.
Proof.
  intros Hclosed Hu. pose proof (reset_all_agree h1 h2 Hu) as Ha.
  assert (∀ i j, j ∈ conns (reset_all nodes h1) i → j ∈ nodes) as Hclosed'.
  { eapply closed_unmarked; [|done]. apply same_unmarked, reset_all_same. }
  unfold number_of_islands, island_populations. split.
  - pose proof (islands_loop_agree fuel nodes _ _ 0 Ha Hclosed' ltac:(done)) as Hs.
    destruct (islands_loop fuel nodes (reset_all nodes h1) 0) as [[? ?]|],
             (islands_loop fuel nodes (reset_all nodes h2) 0) as [[? ?]|]; try done.
    destruct Hs as [_ ->]. done.
  - pose proof (populations_loop_agree fuel nodes _ _ [] Ha Hclosed' ltac:(done)) as Hs.
    destruct (populations_loop fuel nodes (reset_all nodes h1) []) as [[? ?]|],
             (populations_loop fuel nodes (reset_all nodes h2) []) as [[? ?]|]; try done.
    destruct Hs as [_ ->]. done.
Qed.
End leftover_markers.

(** ** Lines that contribute nothing *)

Section dropped_lines.
Implicit Types (line : string) (ls : list string).




Lemma unregistered_get pop_data k :
  ¬ registered pop_data k →
  Py.get k (city_map (after_population pop_data)) = None.
Proof.
  intros Hno. destruct (Py.get k _) eqn:E; [|done].
  exfalso. apply Hno, registered_iff. by rewrite E.
Qed.


Lemma road_line_dropped pop_data ls1 line ls2 :
  Forall single_line (ls1 ++ line :: ls2) →
  (∀ st, city_map st = city_map (after_population pop_data) →
         road_step st line = st) →
  build_graph pop_data (Py.join newline (ls1 ++ line :: ls2))
  = build_graph pop_data (Py.join newline (ls1 ++ ls2)).
Proof.
  intros Hls Hbad. rewrite !build_graph_run.
  rewrite !after_roads_join by eauto using Forall_drop.
  rewrite fold_drop; [done|]. apply Hbad, roads_city_map.
Qed.
End dropped_lines.

(** ** Names of the returned nodes *)

Lemma names_of_values (h : heap) (d : Py.dict) :
  (∀ k v, (k, v) ∈ d → name_of h v = k) → name_of h <$> Py.values d = d.*1.
Proof.
  unfold Py.values. induction d as [|[k v] d IH]; intros Hd; [done|].
  rewrite !fmap_cons. simpl. f_equal.
  - apply Hd. left.
  - apply IH. intros k' v' Hin. apply Hd. by right.
Qed.

(** ** The worked example *)

Lemma example_built : built example_population example_roads example_heap example_nodes.
Proof. exists example_heap. split; vm_compute; reflexivity. Defined.

(** ** The scenarios of the specification *)

Example scenario_one_island :
  ∃ h nodes,
    build_graph (Py.join newline ["A : 100"; "B : 200"]%string) "A : B"
    = Ok (h, nodes) ∧
    snd <$> number_of_islands 2 nodes h = Some 1 ∧
    snd <$> island_populations 2 nodes h = Some [300].
Proof. eexists _, _. split_and!; vm_compute; reflexivity. Qed.

Example scenario_no_roads :
  ∃ h nodes,
    build_graph (Py.join newline ["A : 10"; "B : 20"; "C : 30"]%string) ""
    = Ok (h, nodes) ∧
    snd <$> number_of_islands 3 nodes h = Some 3 ∧
    snd <$> island_populations 3 nodes h = Some [10; 20; 30].
Proof. eexists _, _. split_and!; vm_compute; reflexivity. Qed.

Example scenario_chain :
  build_graph example_population example_roads = Ok (example_heap, example_nodes) ∧
  min_highways 5 example_heap 0 3 = Some 3 ∧
  min_highways 5 example_heap 0 4 = Some (-1) ∧
  min_highways 5 example_heap 2 2 = Some 0.
Proof. split_and!; vm_compute; reflexivity. Qed.

Example scenario_unknown_city :
  build_graph (Py.join newline ["A : 1"; "B : 2"]%string)
    (Py.join newline ["Z : A"; "A : B"]%string)
  = Ok ([mkCity "A" 1 [1%nat] false; mkCity "B" 2 [0%nat] false], [0%nat; 1%nat]).
Proof. vm_compute. reflexivity. Qed.

Example scenario_malformed_line :
  build_graph (Py.join newline ["A : 1"; "B 2"; "C : x"; "D : 4"]%string) "A : D"
  = Ok ([mkCity "A" 1 [1%nat] false; mkCity "D" 4 [0%nat] false], [0%nat; 1%nat]).
Proof. vm_compute. reflexivity. Qed.

(** A name declared twice: the first object stays in the store, out of
    reach, and the second takes its place in the list. *)
Example scenario_redeclared :
  build_graph (Py.join newline ["A : 1"; "B : 2"; "A : 3"]%string) "A : B"
  = Ok ([mkCity "A" 1 [] false; mkCity "B" 2 [2%nat] false;
         mkCity "A" 3 [1%nat] false], [2%nat; 1%nat]).
Proof. vm_compute. reflexivity. Qed.

(** ** Reachability *)

Section reachability.
Implicit Types (h : heap) (a b c : nat).

Lemma reachable_refl h a : reachable h a a.
Proof. exists 0%nat. apply walk_here. Qed.

Lemma walk_app h a b c k m :
  walk h a k b → walk h b m c → walk h a (k + m) c.
Proof.
  intros Hab Hbc. induction Hbc as [|m x y Hbx IH Hxy].
  - by rewrite Nat.add_0_r.
  - rewrite Nat.add_succ_r. by eapply walk_step.
Qed.

Lemma reachable_trans h a b c : reachable h a b → reachable h b c → reachable h a c.
Proof. intros [k Hk] [m Hm]. exists (k + m)%nat. by eapply walk_app. Qed.

Lemma reachable_sym h nodes a b : graph_ok h nodes → reachable h a b → reachable h b a.
Proof. intros Hok [k Hk]. exists k. apply walk_rev; [apply (g_sym _ _ Hok) | done]. Qed.

Lemma walk_conns h h' a k b :
  (∀ i, conns h' i = conns h i) → walk h a k b → walk h' a k b.
Proof.
  intros Hc Hw. induction Hw as [|k x y Hw IH Hxy].
  - apply walk_here.
  - eapply walk_step; [done|]. by rewrite Hc.
Qed.

Lemma reachable_same h h' a b : same_graph h h' → reachable h a b ↔ reachable h' a b.
Proof.
  intros Hs. split; intros [k Hk]; exists k.
  - apply (walk_conns h h'); [|done]. intros i. by apply same_graph_conns.
  - apply (walk_conns h' h); [|done]. intros i. symmetry. by apply same_graph_conns.
Qed.

Lemma reachable_node h nodes a b :
  graph_ok h nodes → a ∈ nodes → reachable h a b → b ∈ nodes.
Proof.
  intros Hok Ha [k Hk]. induction Hk as [|k x y Hw IH Hxy]; [done|].
  by destruct (g_closed _ _ Hok _ _ Hxy).
Qed.

Lemma closed_marks_all h nodes v j :
  graph_ok h nodes → closed_marks h nodes →
  is_visited h v = true → j ∈ conns h v → is_visited h j = true.
Proof.
  intros Hok Hcl Hv Hj. destruct (g_closed _ _ Hok _ _ Hj) as [Hvin _].
  unfold closed_marks in Hcl. rewrite Forall_forall in Hcl.
  specialize (Hcl v Hvin Hv). rewrite Forall_forall in Hcl. by apply Hcl.
Qed.

Lemma closed_marks_reach h nodes a b :
  graph_ok h nodes → closed_marks h nodes →
  is_visited h a = true → reachable h a b → is_visited h b = true.
Proof.
  intros Hok Hcl Ha [k Hk]. induction Hk as [|k x y Hw IH Hxy]; [done|].
  by eapply closed_marks_all.
Qed.
End reachability.

(** ** What the depth-first search reaches *)

Section dfs_reach.
Variables (nodes : list nat) (h0 : heap) (s : nat).
Hypothesis h0_ok : graph_ok h0 nodes.
Implicit Types (h : heap) (stack ns : list nat).

Lemma dfs_neighbors_new ns : ∀ h total stack h' total' stack',
  dfs_neighbors ns h total stack = (h', total', stack') →
  (∀ v, v ∈ stack → v ∈ stack') ∧
  (∀ v, is_visited h' v = true → is_visited h v = true ∨ v ∈ stack') ∧
  (∀ v, v ∈ stack' → v ∈ stack ∨ v ∈ ns).
Proof.
  induction ns as [|n ns IH]; intros h total stack h' total' stack' Hrun;
    simpl in Hrun.
  - simplify_eq. split_and!; auto.
  - destruct (h !! n) as [c|] eqn:Hn; [destruct (visited c) eqn:Hv|].
    + destruct (IH _ _ _ _ _ _ Hrun) as (H1 & H2 & H3).
      split_and!; [done..|]. intros v Hin. destruct (H3 v Hin); [by left|].
      right. by right.
    + destruct (IH _ _ _ _ _ _ Hrun) as (H1 & H2 & H3). split_and!.
      * intros v Hin. apply H1. by right.
      * intros v Hv'. destruct (H2 v Hv') as [Hv1|?]; [|by right].
        rewrite is_visited_insert in Hv1 by done.
        destruct (decide (v = n)) as [->|?]; [|by left].
        right. apply H1. left.
      * intros v Hin. destruct (H3 v Hin) as [[->|?]%elem_of_cons|?].
        -- right. left.
        -- by left.
        -- right. by right.
    + destruct (IH _ _ _ _ _ _ Hrun) as (H1 & H2 & H3).
      split_and!; [done..|]. intros v Hin. destruct (H3 v Hin); [by left|].
      right. by right.
Qed.

Lemma dfs_neighbors_mono ns : ∀ h total stack v,
  is_visited h v = true →
  is_visited (dfs_neighbors ns h total stack).1.1 v = true.
Proof.
  induction ns as [|n ns IH]; intros h total stack v Hv; simpl; [done|].
  destruct (h !! n) as [c|] eqn:Hn; [|by apply IH].
  destruct (visited c); [by apply IH|]. apply IH.
  rewrite is_visited_insert by done. by case_decide.
Qed.

Lemma dfs_loop_mono fuel : ∀ h total stack h' total' v,
  dfs_loop fuel h total stack = Some (h', total') →
  is_visited h v = true → is_visited h' v = true.
Proof.
  induction fuel as [|fuel IH]; intros h total stack h' total' v Hrun Hv.
  - destruct stack; [|done]. simpl in Hrun. by simplify_eq.
  - destruct stack as [|city stack]; [simpl in Hrun; by simplify_eq|].
    simpl in Hrun.
    pose proof (dfs_neighbors_mono (conns h city) h total stack v Hv) as Hv1.
    destruct (dfs_neighbors (conns h city) h total stack) as [[h1 total1] stack1].
    by eapply IH.
Qed.

Lemma dfs_inv_step h total city stack h1 total1 stack1 :
  dfs_neighbors (conns h city) h total stack = (h1, total1, stack1) →
  dfs_inv h0 s h (city :: stack) → dfs_inv h0 s h1 stack1.
Proof.
  intros Hrun (Hm & Hclosed & Hnew & Hstack).
  assert (∀ i, conns h i = conns h0 i) as Hconns
    by (intros i; apply same_graph_conns, Hm).
  assert (length h = length h0) as Hlen by apply Hm.
  destruct (dfs_neighbors_spec nodes (g_nodup _ _ h0_ok) _ _ _ _ _ _ _ Hrun)
    as (Hm1 & _ & _ & Hvis1 & _).
  { intros n Hn. rewrite Hconns in Hn. by destruct (g_closed _ _ h0_ok _ _ Hn). }
  destruct (dfs_neighbors_new _ _ _ _ _ _ _ Hrun) as (Hst1 & N1 & N2).
  assert (∀ v, v ∈ stack1 → reachable h0 s v) as Hstack1.
  { intros v [Hin|Hin]%N2.
    - apply Hstack. by right.
    - rewrite Hconns in Hin. destruct (Hstack city ltac:(left)) as [k Hk].
      exists (S k). by eapply walk_step. }
  split_and!.
  - by eapply marks_trans.
  - intros v j Hv Hout Hj. destruct (N1 v Hv) as [Hv0|?]; [|done].
    destruct (decide (v = city)) as [->|Hne].
    + apply Hvis1; [by rewrite Hconns|]. rewrite Hlen.
      eapply g_valid; [done|]. by destruct (g_closed _ _ h0_ok _ _ Hj).
    + apply Hm1, (Hclosed v j); [done| |done].
      rewrite not_elem_of_cons. split; [done|]. intros Hin. by apply Hout, Hst1.
  - intros v Hv. destruct (N1 v Hv) as [Hv0|Hin]; [by apply Hnew|].
    right. by apply Hstack1.
  - done.
Qed.

Lemma dfs_loop_reach fuel : ∀ h total stack h' total',
  dfs_loop fuel h total stack = Some (h', total') →
  dfs_inv h0 s h stack → dfs_inv h0 s h' [].
Proof.
  induction fuel as [|fuel IH]; intros h total stack h' total' Hrun Hinv.
  - destruct stack; [|done]. simpl in Hrun. by simplify_eq.
  - destruct stack as [|city stack]; [simpl in Hrun; by simplify_eq|].
    simpl in Hrun.
    destruct (dfs_neighbors (conns h city) h total stack)
      as [[h1 total1] stack1] eqn:Hn.
    eapply IH; [done|]. by eapply dfs_inv_step.
Qed.

(** From a store whose marks are closed, the search marks what is
    reachable from its start and nothing else. *)
Lemma depth_first_search_reach fuel c h' total :
  closed_marks h0 nodes → h0 !! s = Some c → visited c = false →
  _depth_first_search fuel s h0 = Some (h', total) →
  marks h0 h' ∧ closed_marks h' nodes ∧
  ∀ v, is_visited h' v = true ↔ is_visited h0 v = true ∨ reachable h0 s v.
Proof.
  intros Hcl Hc Hv Hrun. unfold _depth_first_search in Hrun.
  rewrite Hc, Hv in Hrun.
  pose proof (mark_marks _ _ _ Hc) as Hm1.
  assert (dfs_inv h0 s (<[s := set_visited true c]> h0) [s]) as Hinit.
  { split_and!; [done|..].
    - intros v j Hvis Hout Hj. rewrite not_elem_of_cons in Hout.
      rewrite is_visited_insert in Hvis by done.
      rewrite decide_False in Hvis by tauto.
      apply Hm1. by eapply closed_marks_all.
    - intros v Hvis. rewrite is_visited_insert in Hvis by done.
      destruct (decide (v = s)) as [->|?]; [right; apply reachable_refl | by left].
    - intros v ->%list_elem_of_singleton. apply reachable_refl. }
  destruct (dfs_loop_reach _ _ _ _ _ _ Hrun Hinit) as (Hm & Hclosed & Hnew & _).
  assert (is_visited h' s = true) as Hs.
  { eapply dfs_loop_mono; [done|].
    rewrite is_visited_insert by done. by rewrite decide_True. }
  split_and!; [done| |].
  - unfold closed_marks. rewrite Forall_forall. intros v _ Hvis.
    rewrite Forall_forall. intros j Hj.
    rewrite (same_graph_conns _ _ _ (proj1 Hm)) in Hj.
    apply (Hclosed v j); [done|apply not_elem_of_nil|done].
  - intros v. split; [apply Hnew|]. intros [Hv0|[k Hk]]; [by apply Hm|].
    induction Hk as [|k x y Hw IH Hxy]; [done|].
    apply (Hclosed x y); [done|apply not_elem_of_nil|done].
Qed.
End dfs_reach.

(** ** The islands the loops find *)

Lemma marked_population_diff (h h' : heap) (nodes : list nat) :
  marks h h' →
  marked_population h' nodes - marked_population h nodes
  = total_population h (newly_marked h h' nodes).
Proof.
  intros [Hs Hm]. unfold marked_population, total_population, newly_marked.
  induction nodes as [|r nodes IH]; [done|].
  rewrite !fmap_cons. simpl. rewrite (same_graph_pop_of _ _ _ Hs).
  destruct (is_visited h r) eqn:E.
  - rewrite (Hm r E). rewrite filter_cons_False by (intros [_ ?]; congruence). lia.
  - destruct (is_visited h' r) eqn:E'.
    + rewrite filter_cons_True by done. rewrite fmap_cons. simpl. lia.
    + rewrite filter_cons_False by (intros [? _]; congruence). lia.
Qed.

Lemma component_sum_same (h h' : heap) (nodes : list nat) r p :
  same_graph h h' → component_sum h nodes r p → component_sum h' nodes r p.
Proof.
  intros Hs (comp & Hsub & Hmem & ->). exists comp. split_and!; [done| |].
  - intros v. rewrite Hmem. by rewrite (reachable_same _ _ _ _ Hs).
  - symmetry. by apply same_graph_total.
Qed.

Lemma representatives_same (h h' : heap) (nodes reps : list nat) :
  same_graph h h' → representatives h nodes reps → representatives h' nodes reps.
Proof.
  intros Hs (Hnd & Hin & Hcov & Hsep). split_and!; [done..| |].
  - intros v Hv. destruct (Hcov v Hv) as (r & Hr & Hreach).
    exists r. split; [done|]. by apply (reachable_same _ _ _ _ Hs).
  - intros r r' Hr Hr' Hreach. apply Hsep; [done..|].
    by apply (reachable_same _ _ _ _ Hs).
Qed.

(** The search from a city not marked yet, in a store whose marks are
    closed: it marks the island of the city and returns its population. *)
Lemma depth_first_search_island (h : heap) (nodes : list nat) fuel city :
  graph_ok h nodes → (length h ≤ fuel)%nat → closed_marks h nodes →
  city ∈ nodes → is_visited h city = false →
  ∃ h' total,
    _depth_first_search fuel city h = Some (h', total) ∧
    marks h h' ∧ closed_marks h' nodes ∧
    (∀ v, is_visited h' v = true ↔ is_visited h v = true ∨ reachable h city v) ∧
    component_sum h nodes city total.
Proof.
  intros Hok Hfuel Hcl Hcity Hcv.
  destruct (lookup_lt_is_Some_2 h city (g_valid _ _ Hok _ Hcity)) as [c Hc].
  assert (visited c = false) as Hv by (unfold is_visited in Hcv; by rewrite Hc in Hcv).
  destruct (depth_first_search_spec nodes (g_nodup _ _ Hok) fuel h city c)
    as (h' & total & Hrun & Hm' & Htot & _); [done| |done..|].
  { intros i j Hj. by destruct (g_closed _ _ Hok _ _ Hj). }
  destruct (depth_first_search_reach nodes h city Hok fuel c h' total Hcl Hc Hv Hrun)
    as (_ & Hcl' & Hvis').
  assert (∀ v, is_visited h v = true → ¬ reachable h city v) as Hapart.
  { intros v Hvv Hreach. assert (is_visited h city = true); [|congruence].
    eapply closed_marks_reach; [done..|]. by eapply reachable_sym. }
  exists h', total. split_and!; [done..|].
  exists (newly_marked h h' nodes). split_and!.
  - apply sublist_filter.
  - intros v. unfold newly_marked. rewrite list_elem_of_filter, Hvis'. split.
    + intros [[[Hv1|Hv1] Hv0] Hvn]; [congruence | done].
    + intros [Hvn Hreach]. split_and!; [by right| |done].
      destruct (is_visited h v) eqn:E; [|done]. by destruct (Hapart v E).
  - by rewrite Htot, (marked_population_diff _ _ _ Hm').
Qed.

Lemma last_split {A} (l : list A) : l = [] ∨ ∃ l' x, l = l' ++ [x].
Proof. induction l using rev_ind; [by left | right; eauto]. Qed.

Section islands.
Variables (nodes : list nat) (fuel : nat) (h0 : heap).
Hypothesis h0_ok : graph_ok h0 nodes.
Hypothesis enough : (length h0 ≤ fuel)%nat.
Implicit Types (h : heap) (cs done reps : list nat).

(** The step of the two loops at a city not marked yet. *)
Lemma islands_found_search done reps h city :
  islands_found h0 nodes done reps h → city ∈ nodes →
  is_visited h city = false →
  ∃ h' total,
    _depth_first_search fuel city h = Some (h', total) ∧
    islands_found h0 nodes (done ++ [city]) (reps ++ [city]) h' ∧
    component_sum h0 nodes city total.
Proof.
  intros (Hm & Hcl & Hvis & Hdone & Hnd & Hsub & Hreps & Hcov & Hsep & Hfst)
         Hcity Hcv.
  pose proof (same_graph_ok _ _ _ (proj1 Hm) h0_ok) as Hok.
  assert (∀ a b, reachable h a b ↔ reachable h0 a b) as Hreach.
  { intros a b. symmetry. apply reachable_same, Hm. }
  destruct (depth_first_search_island h nodes fuel city)
    as (h' & total & Hrun & Hm' & Hcl' & Hvis' & Hsum); [done| |done..|].
  { destruct Hm as [[-> _] _]. done. }
  assert (∀ r, r ∈ reps → ¬ reachable h0 city r) as Hfar.
  { intros r Hr Hcr. pose proof (Hdone r (Hreps r Hr)) as Hrn.
    assert (is_visited h r = true) as Hrv.
    { apply Hvis; [done|]. exists r. split; [by apply Hreps | apply reachable_refl]. }
    assert (is_visited h city = true); [|congruence].
    apply (closed_marks_reach h nodes r); [done..|].
    apply Hreach. by eapply reachable_sym. }
  exists h', total. split_and!; [done| |].
  - split_and!.
    + by eapply marks_trans.
    + done.
    + intros v Hvn. rewrite Hvis', (Hvis v Hvn), Hreach. split.
      * intros [(d & Hd & Hdv)|Hcv']; [exists d|exists city];
          (split; [|done]); apply elem_of_app; [by left|right; left].
      * intros (d & [Hd| ->%list_elem_of_singleton]%elem_of_app & Hdv);
          [left; eauto | by right].
    + intros d [Hd| ->%list_elem_of_singleton]%elem_of_app; auto.
    + apply NoDup_app. split_and!; [done| |apply NoDup_singleton].
      intros r Hr ->%list_elem_of_singleton.
      apply (Hfar city Hr), reachable_refl.
    + by apply sublist_app.
    + intros r [Hr| ->%list_elem_of_singleton]%elem_of_app; apply elem_of_app;
        [left; by apply Hreps | right; left].
    + intros d [Hd| ->%list_elem_of_singleton]%elem_of_app.
      * destruct (Hcov d Hd) as (r & Hr & Hrd). exists r.
        split; [apply elem_of_app; by left | done].
      * exists city. split; [apply elem_of_app; right; left | apply reachable_refl].
    + intros r r' [Hr| ->%list_elem_of_singleton]%elem_of_app
                  [Hr'| ->%list_elem_of_singleton]%elem_of_app Hrr'.
      * by apply Hsep.
      * exfalso. apply (Hfar r Hr). by eapply reachable_sym.
      * exfalso. by apply (Hfar r' Hr').
      * done.
    + intros l1 r l2 Hsplit Hr1.
      assert (∀ u, u ∈ done → ¬ reachable h0 u city) as Hnew.
      { intros u Hu Huc. assert (is_visited h city = true); [|congruence].
        apply Hvis; [done|]. by exists u. }
      destruct (last_split l2) as [-> | (l2' & x & ->)].
      * apply app_inj_tail in Hsplit as [<- <-]. split; [intros _; exact Hnew|].
        intros _. apply elem_of_app. right. left.
      * rewrite (app_comm_cons l2' [x] r), app_assoc in Hsplit.
        apply app_inj_tail in Hsplit as [-> <-].
        rewrite <- (Hfst l1 r l2' eq_refl Hr1). split.
        -- intros [Hr| ->%list_elem_of_singleton]%elem_of_app; [done|].
           exfalso. apply (Hnew city); [|apply reachable_refl].
           apply elem_of_app. right. left.
        -- intros Hr. apply elem_of_app. by left.
  - by apply (component_sum_same h); [apply same_graph_sym, Hm|].
Qed.

(** The step at a city already marked. *)
Lemma islands_found_skip done reps h city :
  islands_found h0 nodes done reps h → city ∈ nodes →
  is_visited h city = true →
  islands_found h0 nodes (done ++ [city]) reps h.
Proof.
  intros (Hm & Hcl & Hvis & Hdone & Hnd & Hsub & Hreps & Hcov & Hsep & Hfst)
         Hcity Hcv.
  destruct (proj1 (Hvis city Hcity) Hcv) as (d0 & Hd0 & Hd0c).
  split_and!; [done..| | |done| | | |done|].
  - intros v Hvn. rewrite (Hvis v Hvn). split.
    + intros (d & Hd & Hdv). exists d. split; [apply elem_of_app; by left | done].
    + intros (d & [Hd| ->%list_elem_of_singleton]%elem_of_app & Hdv); [eauto|].
      exists d0. split; [done|]. by eapply reachable_trans.
  - intros d [Hd| ->%list_elem_of_singleton]%elem_of_app; auto.
  - by apply sublist_inserts_r.
  - intros r Hr. apply elem_of_app. left. by apply Hreps.
  - intros d [Hd| ->%list_elem_of_singleton]%elem_of_app; [by apply Hcov|].
    destruct (Hcov d0 Hd0) as (r & Hr & Hrd). exists r. split; [done|].
    by eapply reachable_trans.
  - intros l1 r l2 Hsplit Hr1.
    destruct (last_split l2) as [-> | (l2' & x & ->)].
    + apply app_inj_tail in Hsplit as [<- <-]. split.
      * intros Hr. exfalso. apply Hr1. by apply Hreps.
      * intros Hnew. exfalso. by apply (Hnew d0).
    + rewrite (app_comm_cons l2' [x] r), app_assoc in Hsplit.
      apply app_inj_tail in Hsplit as [-> <-]. by apply (Hfst l1 r l2').
Qed.

Lemma populations_loop_islands cs : ∀ done reps h acc,
  islands_found h0 nodes done reps h → (∀ c, c ∈ cs → c ∈ nodes) →
  ∃ h' pops reps',
    populations_loop fuel cs h acc = Some (h', acc ++ pops) ∧
    islands_found h0 nodes (done ++ cs) (reps ++ reps') h' ∧
    Forall2 (component_sum h0 nodes) reps' pops.
Proof.
  induction cs as [|city cs IH]; intros done reps h acc Hinv Hcs.
  - exists h, [], []. rewrite !app_nil_r. split_and!; [done..|constructor].
  - assert (∀ c, c ∈ cs → c ∈ nodes) as Hcs' by (intros c ?; apply Hcs; by right).
    pose proof (Hcs city ltac:(left)) as Hcity.
    assert (length h = length h0) as Hlen by (by destruct Hinv as ([[? _] _] & _)).
    destruct (lookup_lt_is_Some_2 h city) as [c Hc].
    { rewrite Hlen. by eapply g_valid. }
    simpl. rewrite Hc. rewrite (cons_middle city done cs), app_assoc.
    destruct (visited c) eqn:Hv.
    + destruct (IH (done ++ [city]) reps h acc) as (h' & pops & reps' & Hrun & Hinv' & Hsum);
        [|done|by exists h', pops, reps'].
      apply islands_found_skip; [done..|]. unfold is_visited. by rewrite Hc.
    + destruct (islands_found_search _ _ _ _ Hinv Hcity)
        as (h1 & total & Hdfs & Hinv1 & Hsum1).
      { unfold is_visited. by rewrite Hc. }
      rewrite Hdfs.
      destruct (IH (done ++ [city]) (reps ++ [city]) h1 (acc ++ [total]))
        as (h' & pops & reps' & Hrun & Hinv' & Hsum); [done..|].
      exists h', (total :: pops), (city :: reps').
      rewrite <- (app_assoc acc [total] pops) in Hrun.
      rewrite <- (app_assoc reps [city] reps') in Hinv'.
      split_and!; [done..|]. by constructor.
Qed.

Lemma islands_found_start h :
  same_graph h0 h → (∀ v, v ∈ nodes → is_visited h v = false) →
  islands_found h nodes [] [] h.
Proof.
  intros Hs Hclean. split_and!.
  - apply marks_refl.
  - unfold closed_marks. rewrite Forall_forall. intros v Hv Hvis.
    rewrite Hclean in Hvis by done. done.
  - intros v Hv. rewrite Hclean by done. split; [done|].
    by intros (d & ?%elem_of_nil & _).
  - by intros d ?%elem_of_nil.
  - apply NoDup_nil_2.
  - done.
  - by intros r ?%elem_of_nil.
  - by intros d ?%elem_of_nil.
  - by intros r r' ?%elem_of_nil.
  - intros l1 r l2 Hsplit. by destruct l1.
Qed.
End islands.

(** The two loops go the same way: one counts what the other collects. *)
Lemma loops_lockstep fuel cs : ∀ (h : heap) num acc,
  match populations_loop fuel cs h acc with
  | Some (h', pops) =>
      islands_loop fuel cs h num
      = Some (h', num + Z.of_nat (length pops) - Z.of_nat (length acc))
  | None => islands_loop fuel cs h num = None
  end.
Proof.
  induction cs as [|city cs IH]; intros h num acc; simpl.
  - f_equal. f_equal. lia.
  - destruct (h !! city) as [c|]; [|apply IH].
    destruct (visited c); [apply IH|].
    destruct (_depth_first_search fuel city h) as [[h1 total]|]; [|done].
    specialize (IH h1 (num + 1) (acc ++ [total])).
    destruct (populations_loop fuel cs h1 (acc ++ [total])) as [[h' pops]|]; [|done].
    rewrite IH. f_equal. f_equal. rewrite length_app. simpl. lia.
Qed.

Lemma first_cities_same (h h' : heap) (nodes reps : list nat) :
  same_graph h h' → first_cities h nodes reps → first_cities h' nodes reps.
Proof.
  intros Hs Hfst l1 r l2 Hsplit. rewrite (Hfst l1 r l2 Hsplit).
  split; intros Hnew u Hu Hur; apply (Hnew u Hu);
    by apply (reachable_same h h' u r Hs).
Qed.

(** What both island operations compute on a well-formed graph: one entry
    for the first city of each island, in the order of the list. *)
Lemma island_operations_first (h : heap) (nodes : list nat) fuel :
  graph_ok h nodes → (length h ≤ fuel)%nat →
  ∃ h' pops reps,
    island_populations fuel nodes h = Some (h', pops) ∧
    number_of_islands fuel nodes h = Some (h', Z.of_nat (length pops)) ∧
    representatives h nodes reps ∧ reps `sublist_of` nodes ∧
    Forall2 (component_sum h nodes) reps pops ∧
    first_cities h nodes reps.
Proof.
  intros Hok Hfuel.
  pose proof (reset_all_same nodes h) as Hsame.
  pose proof (same_graph_ok _ _ _ Hsame Hok) as Hok0.
  assert (length (reset_all nodes h) ≤ fuel)%nat as Hfuel0
    by (destruct Hsame as [-> _]; done).
  destruct (populations_loop_islands nodes fuel (reset_all nodes h) Hok0 Hfuel0
              nodes [] [] (reset_all nodes h) [])
    as (h' & pops & reps & Hrun & Hinv & Hsum); [|done|].
  { apply (islands_found_start nodes (reset_all nodes h)); [apply same_graph_refl|].
    intros v Hv. apply reset_all_false. by left. }
  simpl in Hrun, Hinv.
  destruct Hinv as (_ & _ & _ & _ & Hnd & Hsub & Hreps & Hcov & Hsep & Hfst).
  exists h', pops, reps. split_and!.
  - done.
  - unfold number_of_islands.
    pose proof (loops_lockstep fuel nodes (reset_all nodes h) 0 []) as Hlock.
    unfold island_populations in Hrun. rewrite Hrun in Hlock. rewrite Hlock.
    f_equal. f_equal. simpl. lia.
  - apply (representatives_same (reset_all nodes h)); [by apply same_graph_sym|].
    split_and!; [done..].
  - done.
  - eapply Forall2_impl; [done|]. intros r p Hc.
    apply (component_sum_same (reset_all nodes h)); [by apply same_graph_sym | done].
  - apply (first_cities_same (reset_all nodes h)); [by apply same_graph_sym|].
    intros l1 r l2 Hsplit. apply (Hfst l1 r l2 Hsplit).
    pose proof (g_nodup _ _ Hok) as Hnodes. rewrite Hsplit in Hnodes.
    apply NoDup_app in Hnodes as (_ & Hdis & _).
    intros Hr. apply (Hdis r Hr). left.
Qed.

(** The same, leaving out which city stands for each island. *)
Lemma island_operations (h : heap) (nodes : list nat) fuel :
  graph_ok h nodes → (length h ≤ fuel)%nat →
  ∃ h' pops reps,
    island_populations fuel nodes h = Some (h', pops) ∧
    number_of_islands fuel nodes h = Some (h', Z.of_nat (length pops)) ∧
    representatives h nodes reps ∧ reps `sublist_of` nodes ∧
    Forall2 (component_sum h nodes) reps pops.
Proof.
  intros Hok Hfuel.
  destruct (island_operations_first h nodes fuel Hok Hfuel)
    as (h' & pops & reps & ? & ? & ? & ? & ? & _).
  by exists h', pops, reps.
Qed.

(** Any two choices of representatives have the same size: the number of
    islands. *)
Lemma representatives_le (h : heap) (nodes : list nat) : ∀ R1 R2,
  graph_ok h nodes → NoDup R1 →
  (∀ r r', r ∈ R1 → r' ∈ R1 → reachable h r r' → r = r') →
  (∀ r, r ∈ R1 → ∃ r2, r2 ∈ R2 ∧ reachable h r2 r) →
  (length R1 ≤ length R2)%nat.
Proof.
  intros R1 R2 Hok. revert R2.
  induction R1 as [|r R1 IH]; intros R2 Hnd Hsep Hcov; [simpl; lia|].
  apply NoDup_cons in Hnd as [Hr Hnd].
  destruct (Hcov r ltac:(left)) as (r2 & Hr2 & Hreach).
  apply list_elem_of_split in Hr2 as (l1 & l2 & ->).
  rewrite length_app. simpl.
  assert (length R1 ≤ length (l1 ++ l2))%nat as Hle; [|rewrite length_app in Hle; lia].
  apply IH; [done| |].
  - intros x y Hx Hy. apply Hsep; by right.
  - intros x Hx. destruct (Hcov x ltac:(by right)) as (y & Hy & Hyx).
    exists y. split; [|done].
    apply elem_of_app in Hy as [?|[->|?]%elem_of_cons]; apply elem_of_app; auto.
    exfalso. apply Hr.
    assert (r = x) as -> ; [|done].
    apply Hsep; [left|by right|].
    eapply reachable_trans; [|done]. by eapply reachable_sym.
Qed.

Lemma representatives_length (h : heap) (nodes R1 R2 : list nat) :
  graph_ok h nodes → representatives h nodes R1 → representatives h nodes R2 →
  length R1 = length R2.
Proof.
  intros Hok (Hnd1 & Hin1 & Hcov1 & Hsep1) (Hnd2 & Hin2 & Hcov2 & Hsep2).
  apply Nat.le_antisymm; eapply representatives_le; eauto.
Qed.

(** ** The first city of each island *)

(** A list without duplicates has one sublist for each set of members. *)
Lemma sublist_members (l : list nat) : ∀ l1 l2,
  NoDup l → l1 `sublist_of` l → l2 `sublist_of` l →
  (∀ v, v ∈ l1 ↔ v ∈ l2) → l1 = l2.
Proof.
  induction l as [|x l IH]; intros l1 l2 Hnd Hl1 Hl2 Hmem.
  - apply sublist_nil_r in Hl1, Hl2. by subst.
  - apply NoDup_cons in Hnd as [Hx Hnd].
    assert (∀ k, k `sublist_of` l → x ∉ k) as Hout.
    { intros k Hk Hxk. apply Hx. by eapply elem_of_sublist. }
    apply sublist_cons_r in Hl1 as [Hl1|(l1' & -> & Hl1)];
      apply sublist_cons_r in Hl2 as [Hl2|(l2' & -> & Hl2)].
    + by apply IH.
    + exfalso. apply (Hout l1 Hl1), Hmem. left.
    + exfalso. apply (Hout l2 Hl2), Hmem. left.
    + f_equal. apply IH; [done..|]. intros v. split; intros Hv.
      * assert (v ∈ x :: l2') as [-> | Hv']%elem_of_cons
          by (apply Hmem; by right); [|done].
        by destruct (Hout l1' Hl1).
      * assert (v ∈ x :: l1') as [-> | Hv']%elem_of_cons
          by (apply Hmem; by right); [|done].
        by destruct (Hout l2' Hl2).
Qed.

Lemma first_cities_unique (h : heap) (nodes reps reps' : list nat) :
  NoDup nodes → reps `sublist_of` nodes → reps' `sublist_of` nodes →
  first_cities h nodes reps → first_cities h nodes reps' → reps = reps'.
Proof.
  intros Hnd Hsub Hsub' Hfst Hfst'. apply (sublist_members nodes); [done..|].
  intros v. split; intros Hv.
  - destruct (list_elem_of_split nodes v) as (l1 & l2 & Hsplit);
      [by eapply elem_of_sublist|].
    apply (Hfst' l1 v l2 Hsplit). by apply (Hfst l1 v l2 Hsplit).
  - destruct (list_elem_of_split nodes v) as (l1 & l2 & Hsplit);
      [by eapply elem_of_sublist|].
    apply (Hfst l1 v l2 Hsplit). by apply (Hfst' l1 v l2 Hsplit).
Qed.

Lemma component_sum_unique (h : heap) (nodes : list nat) r p p' :
  NoDup nodes → component_sum h nodes r p → component_sum h nodes r p' → p = p'.
Proof.
  intros Hnd (comp & Hsub & Hmem & ->) (comp' & Hsub' & Hmem' & ->).
  f_equal. apply (sublist_members nodes); [done..|].
  intros v. by rewrite Hmem, Hmem'.
Qed.

Lemma component_sums_unique (h : heap) (nodes : list nat) reps : ∀ pops pops',
  NoDup nodes →
  Forall2 (component_sum h nodes) reps pops →
  Forall2 (component_sum h nodes) reps pops' → pops = pops'.
Proof.
  induction reps as [|r reps IH]; intros pops pops' Hnd Hp Hp'.
  - apply Forall2_nil_inv_l in Hp, Hp'. by subst.
  - apply Forall2_cons_inv_l in Hp as (p & ps & Hc & Hps & ->).
    apply Forall2_cons_inv_l in Hp' as (p' & ps' & Hc' & Hps' & ->).
    f_equal; [by eapply component_sum_unique | by apply IH].
Qed.

(** ** Shortest paths *)

Section shortest_facts.
Variables (h : heap) (nodes : list nat).
Hypothesis h_ok : graph_ok h nodes.

Lemma shortest_prefix a w b k :
  shortest h a b (S k) → walk h a k w → b ∈ conns h w → shortest h a w k.
Proof.
  intros [_ Hmin] Hw Hb. split; [done|]. intros m Hm.
  assert (walk h a (S m) b) as Hb' by (by eapply walk_step).
  specialize (Hmin _ Hb'). lia.
Qed.

(** A shortest path of [k] edges goes through [k + 1] distinct nodes. *)
Lemma shortest_vertices a : ∀ k b,
  shortest h a b k →
  ∃ l, length l = S k ∧ NoDup l ∧
       ∀ v, v ∈ l → ∃ m, (m ≤ k)%nat ∧ walk h a m v.
Proof.
  induction k as [|k IH]; intros b Hsh.
  - exists [b]. split_and!; [done|apply NoDup_singleton|].
    intros v ->%list_elem_of_singleton. exists 0%nat. split; [done|apply Hsh].
  - destruct (walk_last _ _ _ _ (proj1 Hsh)) as (w & Hw & Hb).
    destruct (IH w (shortest_prefix _ _ _ _ Hsh Hw Hb)) as (l & Hlen & Hnd & Hl).
    exists (b :: l). split_and!.
    + simpl. by rewrite Hlen.
    + apply NoDup_cons. split; [|done]. intros (m & Hm & Hwm)%Hl.
      pose proof (proj2 Hsh m Hwm). lia.
    + intros v [->|Hv]%elem_of_cons.
      * exists (S k). split; [done|apply Hsh].
      * destruct (Hl v Hv) as (m & Hm & Hwm). exists m. split; [lia|done].
Qed.

Lemma shortest_bound a b k :
  a ∈ nodes → shortest h a b k → (k < length nodes)%nat.
Proof.
  intros Ha Hsh. destruct (shortest_vertices a k b Hsh) as (l & Hlen & Hnd & Hl).
  assert (length l ≤ length nodes)%nat; [|lia].
  apply submseteq_length, NoDup_submseteq; [done|].
  intros v (m & _ & Hm)%Hl. eapply reachable_node; [done..|]. by exists m.
Qed.
End shortest_facts.

(** ** Roads *)

Section road_facts.
Implicit Types (h : heap) (st : build_state) (a b i j : nat).

Lemma add_connection_id a b h : b ∈ conns h a → add_connection a b h = h.
Proof.
  unfold conns, add_connection. destruct (h !! a) as [c|]; [|done].
  intros Hin. by rewrite decide_True.
Qed.

Lemma add_connection_NoDup a b h :
  (∀ i c, h !! i = Some c → NoDup (connections c)) →
  ∀ i c, add_connection a b h !! i = Some c → NoDup (connections c).
Proof.
  intros Hnd i c. rewrite add_connection_lookup.
  destruct (h !! i) as [c0|] eqn:Hi; [|done]. simpl. intros [= <-].
  specialize (Hnd _ _ Hi).
  destruct (decide (i = a)); [|done].
  destruct (decide (b ∈ connections c0)) as [|Hnew]; [done|]. simpl.
  apply NoDup_app. split_and!; [done| |apply NoDup_singleton].
  by intros x Hx ->%list_elem_of_singleton.
Qed.

Lemma add_connection_comm a b h :
  add_connection b a (add_connection a b h)
  = add_connection a b (add_connection b a h).
Proof.
  destruct (decide (a = b)) as [->|Hne]; [done|].
  apply list_eq. intros i. rewrite !add_connection_lookup.
  destruct (h !! i) as [c|]; [|done]. simpl. f_equal.
  destruct (decide (i = a)) as [Ha|Ha], (decide (i = b)) as [Hb|Hb]; try done.
  congruence.
Qed.

Lemma connect_comm a b st : connect a b st = connect b a st.
Proof. unfold connect. by rewrite add_connection_comm. Qed.

Lemma connect_id a b st :
  b ∈ conns (objects st) a → a ∈ conns (objects st) b → connect a b st = st.
Proof.
  intros Hab Hba. unfold connect. rewrite (add_connection_id a b) by done.
  rewrite add_connection_id by done. by destruct st.
Qed.

Lemma road_step_swap st l l' (n1 n2 : string) :
  parse_road l = Some (n1, n2) → parse_road l' = Some (n2, n1) →
  road_step st l' = road_step st l.
Proof.
  intros Hl Hl'. unfold road_step. rewrite Hl, Hl'.
  destruct (Py.get n1 (city_map st)), (Py.get n2 (city_map st)); try done.
  apply connect_comm.
Qed.

Lemma road_step_NoDup st l :
  (∀ i c, objects st !! i = Some c → NoDup (connections c)) →
  ∀ i c, objects (road_step st l) !! i = Some c → NoDup (connections c).
Proof.
  intros Hnd. unfold road_step. destruct (parse_road l) as [[n1 n2]|]; [|done].
  destruct (Py.get n1 (city_map st)), (Py.get n2 (city_map st)); try done.
  simpl. by apply add_connection_NoDup, add_connection_NoDup.
Qed.

Lemma roads_NoDup ls : ∀ st,
  (∀ i c, objects st !! i = Some c → NoDup (connections c)) →
  ∀ i c, objects (foldl road_step st ls) !! i = Some c → NoDup (connections c).
Proof.
  induction ls as [|l ls IH]; intros st Hnd; [done|].
  simpl. by apply IH, road_step_NoDup.
Qed.

(** A road already in the graph, met again in either direction. *)
Lemma road_step_again st l i j (n1 n2 : string) :
  parse_road l = Some (n1, n2) →
  Py.get n1 (city_map st) = Some i → Py.get n2 (city_map st) = Some j →
  j ∈ conns (objects st) i → i ∈ conns (objects st) j →
  road_step st l = st.
Proof.
  intros Hl Ha Hb Hij Hji. unfold road_step. rewrite Hl, Ha, Hb.
  by apply connect_id.
Qed.

Lemma population_none ls st :
  (∀ l, l ∈ ls → parse_population l = None) → foldl population_step st ls = st.
Proof.
  revert st. induction ls as [|l ls IH]; intros st Hnone; [done|].
  simpl. unfold population_step at 2. rewrite (Hnone l) by left.
  apply IH. intros l' Hl'. apply Hnone. by right.
Qed.

Lemma roads_unregistered ls st :
  city_map st = [] → foldl road_step st ls = st.
Proof.
  revert st. induction ls as [|l ls IH]; intros st Hd; [done|].
  simpl. assert (road_step st l = st) as ->; [|by apply IH].
  unfold road_step. destruct (parse_road l) as [[n1 n2]|]; [|done].
  by rewrite Hd.
Qed.
End road_facts.

(** * The claims *)

(** C1. On a graph built by [build_graph], for two of its nodes,
    [min_highways] returns 0 when they are the same node, the minimum
    number of edges on any path from the first to the second when the
    second is reachable, and -1 when it is not. *)
Theorem min_highways_correct pop_data road_data h nodes start_city end_city fuel :
  built pop_data road_data h nodes →
  start_city ∈ nodes → end_city ∈ nodes → (length h ≤ fuel)%nat →
  (start_city = end_city → min_highways fuel h start_city end_city = Some 0) ∧
  (reachable h start_city end_city →
   ∃ k, shortest h start_city end_city k ∧
        min_highways fuel h start_city end_city = Some (Z.of_nat k)) ∧
  (¬ reachable h start_city end_city →
   min_highways fuel h start_city end_city = Some (-1)).
Proof.
  intros Hb Hs He Hfuel. apply built_ok_graph in Hb.
  destruct (min_highways_spec fuel h nodes start_city end_city Hb Hs He Hfuel)
    as (r & Hr & Hans).
  split_and!.
  - intros ->. unfold min_highways. by rewrite decide_True.
  - intros Hreach. destruct Hans as [(k & -> & Hk)|[_ Hno]]; [eauto|done].
  - intros Hno. destruct Hans as [(k & -> & Hk & _)|[-> _]]; [|done].
    exfalso. apply Hno. by exists k.
Qed.

Lemma min_highways_correct_witness :
  (0%nat = 3%nat → min_highways 5 example_heap 0 3 = Some 0) ∧
  (reachable example_heap 0 3 →
   ∃ k, shortest example_heap 0 3 k ∧
        min_highways 5 example_heap 0 3 = Some (Z.of_nat k)) ∧
  (¬ reachable example_heap 0 3 → min_highways 5 example_heap 0 3 = Some (-1)).
Proof.
  apply (min_highways_correct example_population example_roads
           example_heap example_nodes 0 3 5).
  - exact example_built.
  - by_evaluation.
  - by_evaluation.
  - vm_compute. lia.
Defined.

(** C2. On a graph built by [build_graph], the list returned by
    [island_populations] sums to the total population of the nodes. *)
Theorem island_populations_sum pop_data road_data h nodes fuel :
  built pop_data road_data h nodes → (length h ≤ fuel)%nat →
  ∃ h' populations,
    island_populations fuel nodes h = Some (h', populations) ∧
    py_sum populations = total_population h nodes.
Proof.
  intros Hb Hfuel. apply built_ok_graph in Hb.
  pose proof (reset_all_same nodes h) as Hsame.
  destruct (populations_loop_spec nodes fuel nodes (reset_all nodes h) [])
    as (h' & pops & Hrun & Hm & Hsum & Hvis).
  - by eapply same_graph_ok.
  - destruct Hsame as [-> _]. done.
  - done.
  - exists h', pops. split; [done|].
    rewrite marked_population_all in Hsum by done.
    rewrite marked_population_none in Hsum
      by (intros r Hr; apply reset_all_false; by left).
    rewrite (same_graph_total _ _ _ (proj1 Hm)) in Hsum.
    rewrite (same_graph_total _ _ _ Hsame) in Hsum.
    simpl in Hsum. lia.
Qed.

Lemma island_populations_sum_witness :
  ∃ h' populations,
    island_populations 5 example_nodes example_heap = Some (h', populations) ∧
    py_sum populations = total_population example_heap example_nodes.
Proof.
  apply (island_populations_sum example_population example_roads).
  - exact example_built.
  - vm_compute. lia.
Defined.

(** C3, as stated, fails: a road from a city to itself is an edge, and the
    single city is still one island. *)
Lemma number_of_islands_self_loop :
  ∃ h nodes h' n,
    build_graph "A : 1" "A : A" = Ok (h, nodes) ∧
    number_of_islands 1 nodes h = Some (h', n) ∧
    n = Z.of_nat (length nodes) ∧ ¬ zero_edges h nodes.
Proof.
  eexists _, _, _, _. split_and!; [vm_compute; reflexivity..|].
  intros Hz. specialize (Hz 0%nat ltac:(by_evaluation)). vm_compute in Hz. done.
Qed.

(** C3, amended. On a graph built by [build_graph], [number_of_islands]
    returns at most the number of nodes, and exactly the number of nodes if
    and only if no edge joins two distinct nodes. *)
Theorem number_of_islands_bound pop_data road_data h nodes fuel :
  built pop_data road_data h nodes → (length h ≤ fuel)%nat →
  ∃ h' n,
    number_of_islands fuel nodes h = Some (h', n) ∧
    n ≤ Z.of_nat (length nodes) ∧
    (n = Z.of_nat (length nodes) ↔ only_self_loops h nodes).
Proof.
  intros Hb Hfuel. apply built_ok_graph in Hb.
  pose proof (reset_all_same nodes h) as Hsame.
  pose proof (same_graph_ok _ _ _ Hsame Hb) as Hok0.
  assert (∀ r, r ∈ nodes → is_visited (reset_all nodes h) r = false) as Hclean.
  { intros r Hr. apply reset_all_false. by left. }
  destruct (islands_loop_spec nodes fuel nodes (reset_all nodes h) 0)
    as (h' & n & Hrun & Hm & Hvis & J1 & J2 & J3).
  - done.
  - destruct Hsame as [-> _]. done.
  - done.
  - unfold islands_inv. rewrite (marked_count_none _ _ Hclean).
    split_and!; [done| |done].
    intros (x & y & Hx & Hy & _).
    destruct (g_closed _ _ Hok0 _ _ Hy) as [Hxin _].
    rewrite Hclean in Hx by done. done.
  - assert (∀ i, conns h' i = conns h i) as Hconns.
    { intros i. rewrite (same_graph_conns _ _ _ (proj1 Hm)).
      by apply same_graph_conns. }
    rewrite (marked_count_all _ _ Hvis) in J1, J2, J3.
    exists h', n. split_and!; [done..|]. split.
    + intros Hn i j Hi Hj. destruct (decide (j = i)) as [|Hne]; [done|].
      assert (n < Z.of_nat (length nodes)); [|lia].
      apply J2. exists i, j. rewrite Hconns. auto.
    + intros Hloops. apply J3. intros i j Hj. rewrite Hconns in Hj.
      apply Hloops; [|done]. by destruct (g_closed _ _ Hb _ _ Hj).
Qed.

Lemma number_of_islands_bound_witness :
  ∃ h' n,
    number_of_islands 5 example_nodes example_heap = Some (h', n) ∧
    n ≤ Z.of_nat (length example_nodes) ∧
    (n = Z.of_nat (length example_nodes)
     ↔ only_self_loops example_heap example_nodes).
Proof.
  apply (number_of_islands_bound example_population example_roads).
  - exact example_built.
  - vm_compute. lia.
Defined.

(** C4. In the graph returned by [build_graph] the neighbour relation is
    symmetric: if B is in A's connections, A is in B's. *)
Theorem connections_symmetric pop_data road_data h nodes a b ca :
  build_graph pop_data road_data = Ok (h, nodes) →
  h !! a = Some ca → b ∈ connections ca →
  ∃ cb, h !! b = Some cb ∧ a ∈ connections cb.
Proof.
  intros Hb%built_graph_ok Ha Hin.
  rewrite <- (conns_lookup _ _ _ Ha) in Hin.
  apply (g_sym _ _ Hb) in Hin. unfold conns in Hin.
  destruct (h !! b) as [cb|]; [eauto|]. by apply elem_of_nil in Hin.
Qed.

Lemma connections_symmetric_witness :
  ∃ cb, example_heap !! 2%nat = Some cb ∧ 1%nat ∈ connections cb.
Proof.
  apply (connections_symmetric example_population example_roads
           example_heap example_nodes 1 2
           (mkCity "B" 20 [0%nat; 2%nat] false)).
  - vm_compute. reflexivity.
  - reflexivity.
  - by_evaluation.
Defined.

(** C5, as stated, fails: a road line naming one registered city on both
    sides puts the city in its own connections. *)
Lemma build_graph_self_loop :
  ∃ h nodes c,
    build_graph "A : 1" "A : A" = Ok (h, nodes) ∧
    0%nat ∈ nodes ∧ h !! 0%nat = Some c ∧ 0%nat ∈ connections c.
Proof.
  eexists _, _, _. split_and!; [vm_compute; reflexivity|..].
  - by_evaluation.
  - reflexivity.
  - by_evaluation.
Qed.

(** C5, amended. A node of the graph returned by [build_graph] is in its
    own connections exactly when some road line names that city on both
    sides; without such a line the builder creates no self-loop. *)
Theorem self_loop_iff pop_data road_data h nodes r c :
  build_graph pop_data road_data = Ok (h, nodes) →
  r ∈ nodes → h !! r = Some c →
  r ∈ connections c ↔
  ∃ line, line ∈ lines road_data ∧ parse_road line = Some (name c, name c).
Proof.
  rewrite build_graph_run. intros [= <- <-] Hr Hc.
  pose proof (built_ok pop_data road_data) as Hok.
  assert (∀ k, Py.get k (city_map (after_population pop_data)) = Some r →
            k = name c) as Hname.
  { intros k Hk. rewrite <- (built_city_map pop_data road_data) in Hk.
    apply get_elem_of in Hk.
    destruct (reg_named _ Hok _ _ Hk) as (c' & Hc' & Hn). congruence. }
  assert (Py.get (name c) (city_map (after_population pop_data)) = Some r) as Hget.
  { apply list_elem_of_fmap in Hr as [[k v] [-> Hin]]. simpl in *.
    destruct (reg_named _ Hok _ _ Hin) as (c' & Hc' & Hn).
    rewrite <- (built_city_map pop_data road_data).
    apply elem_of_get; [apply Hok|]. congruence. }
  rewrite <- (conns_lookup _ _ _ Hc), built_edges. split.
  - intros (line & Hl & a & b & x & y & Hp & Hx & Hy & Hxy).
    exists line. split; [done|].
    assert (x = r ∧ y = r) as [-> ->] by (destruct Hxy as [[-> ->]|[-> ->]]; done).
    rewrite Hp. f_equal. f_equal; by apply Hname.
  - intros (line & Hl & Hp). exists line. split; [done|].
    exists (name c), (name c), r, r. split_and!; [done..|]. by left.
Qed.

Lemma self_loop_iff_witness :
  1%nat ∈ connections (mkCity "B" 20 [0%nat; 2%nat] false) ↔
  ∃ line, line ∈ lines example_roads ∧ parse_road line = Some ("B", "B")%string.
Proof.
  apply (self_loop_iff example_population example_roads
           example_heap example_nodes 1 (mkCity "B" 20 [0%nat; 2%nat] false)).
  - vm_compute. reflexivity.
  - by_evaluation.
  - reflexivity.
Defined.

(** C6, as stated, fails: [number_of_islands] returns with the nodes it
    visited still marked. *)
Lemma number_of_islands_leaves_marks :
  ∃ h nodes h' n,
    build_graph "A : 1" "" = Ok (h, nodes) ∧
    number_of_islands 1 nodes h = Some (h', n) ∧
    0%nat ∈ nodes ∧ is_visited h' 0 = true.
Proof.
  eexists _, _, _, _. split_and!; [vm_compute; reflexivity..|by_evaluation|reflexivity].
Qed.

(** C6, amended. [number_of_islands] and [island_populations] start
    exploring from a store in which the marker of every node is false and
    return with the marker of every node true, the rest of the store being
    as it was; [min_highways] keeps its visited set to itself.  Whatever
    markers an earlier call has left, the three operations return the same
    results. *)
Theorem traversal_markers pop_data road_data h nodes fuel :
  built pop_data road_data h nodes → (length h ≤ fuel)%nat →
  (∀ r, r ∈ nodes → is_visited (reset_all nodes h) r = false) ∧
  (∃ h' n,
     islands_loop fuel nodes (reset_all nodes h) 0 = Some (h', n) ∧
     number_of_islands fuel nodes h = Some (h', n) ∧
     unmarked h' = unmarked h ∧ ∀ r, r ∈ nodes → is_visited h' r = true) ∧
  (∃ h' populations,
     populations_loop fuel nodes (reset_all nodes h) [] = Some (h', populations) ∧
     island_populations fuel nodes h = Some (h', populations) ∧
     unmarked h' = unmarked h ∧ ∀ r, r ∈ nodes → is_visited h' r = true) ∧
  (∀ h2,
     unmarked h2 = unmarked h →
     snd <$> number_of_islands fuel nodes h2 = snd <$> number_of_islands fuel nodes h ∧
     snd <$> island_populations fuel nodes h2
     = snd <$> island_populations fuel nodes h ∧
     ∀ start_city end_city,
       min_highways fuel h2 start_city end_city
       = min_highways fuel h start_city end_city).
Proof.
  intros Hb Hfuel. apply built_ok_graph in Hb.
  pose proof (reset_all_same nodes h) as Hsame.
  pose proof (same_graph_ok _ _ _ Hsame Hb) as Hok0.
  assert (∀ r, r ∈ nodes → is_visited (reset_all nodes h) r = false) as Hclean.
  { intros r Hr. apply reset_all_false. by left. }
  assert (length (reset_all nodes h) ≤ fuel)%nat as Hfuel0.
  { destruct Hsame as [-> _]. done. }
  split_and!.
  - done.
  - destruct (islands_loop_spec nodes fuel nodes (reset_all nodes h) 0)
      as (h' & n & Hrun & Hm & Hvis & _); [done..| |].
    + unfold islands_inv. rewrite (marked_count_none _ _ Hclean).
      split_and!; [done| |done].
      intros (x & y & Hx & Hy & _).
      destruct (g_closed _ _ Hok0 _ _ Hy) as [Hxin _].
      rewrite Hclean in Hx by done. done.
    + exists h', n. split_and!; [done..| |done].
      apply same_unmarked. eapply same_graph_trans; [done | apply Hm].
  - destruct (populations_loop_spec nodes fuel nodes (reset_all nodes h) [])
      as (h' & pops & Hrun & Hm & _ & Hvis); [done..|].
    exists h', pops. split_and!; [done..| |done].
    apply same_unmarked. eapply same_graph_trans; [done | apply Hm].
  - intros h2 Hu.
    destruct (islands_fresh nodes fuel h h2) as [Hi Hp]; [|done|].
    { intros i j Hj. by destruct (g_closed _ _ Hb _ _ Hj). }
    split_and!; [done..|].
    intros s e. by apply min_highways_conns, unmarked_same.
Qed.

Lemma traversal_markers_witness :
  ∃ h' n,
    number_of_islands 5 example_nodes example_heap = Some (h', n) ∧
    ∀ r, r ∈ example_nodes → is_visited h' r = true.
Proof.
  destruct (traversal_markers example_population example_roads
              example_heap example_nodes 5)
    as (_ & (h' & n & _ & Hrun & _ & Hvis) & _).
  - exact example_built.
  - vm_compute. lia.
  - by exists h', n.
Defined.

(** C7. On a graph built by [build_graph], [min_highways] gives the same
    answer in both directions, for reachable and unreachable pairs alike. *)
Theorem min_highways_symmetric pop_data road_data h nodes a b fuel :
  built pop_data road_data h nodes →
  a ∈ nodes → b ∈ nodes → (length h ≤ fuel)%nat →
  ∃ r, min_highways fuel h a b = Some r ∧ min_highways fuel h b a = Some r.
Proof.
  intros Hb Ha Hbn Hfuel. apply built_ok_graph in Hb.
  destruct (min_highways_spec fuel h nodes a b Hb Ha Hbn Hfuel) as (r & Hr & Hans).
  destruct (min_highways_spec fuel h nodes b a Hb Hbn Ha Hfuel) as (r' & Hr' & Hans').
  exists r. split; [done|]. rewrite Hr'. f_equal.
  pose proof (g_sym _ _ Hb) as Hsym.
  destruct Hans as [(k & -> & Hk)|[-> Hno]], Hans' as [(k' & -> & Hk')|[-> Hno']].
  - f_equal. eapply shortest_unique; [done|]. by apply shortest_rev.
  - exfalso. apply Hno'. exists k. apply walk_rev; [done | apply Hk].
  - exfalso. apply Hno. exists k'. apply walk_rev; [done | apply Hk'].
  - done.
Qed.

Lemma min_highways_symmetric_witness :
  ∃ r, min_highways 5 example_heap 0 3 = Some r ∧
       min_highways 5 example_heap 3 0 = Some r.
Proof.
  apply (min_highways_symmetric example_population example_roads
           example_heap example_nodes 0 3 5).
  - exact example_built.
  - by_evaluation.
  - by_evaluation.
  - vm_compute. lia.
Defined.

(** C8. [build_graph] makes an edge for a road line only if both names were
    registered from the population data; a road line with an unknown name
    is dropped, leaving the nodes and the other edges as they are, and no
    error is raised. *)
Theorem unknown_city_road_dropped pop_data :
  (∀ ls1 line ls2 a b,
     Forall single_line (ls1 ++ line :: ls2) →
     parse_road line = Some (a, b) →
     ¬ registered pop_data a ∨ ¬ registered pop_data b →
     ∃ h nodes,
       build_graph pop_data (Py.join newline (ls1 ++ line :: ls2)) = Ok (h, nodes) ∧
       build_graph pop_data (Py.join newline (ls1 ++ ls2)) = Ok (h, nodes)) ∧
  (∀ road_data h nodes i j ci cj,
     build_graph pop_data road_data = Ok (h, nodes) →
     h !! i = Some ci → h !! j = Some cj → j ∈ connections ci →
     registered pop_data (name ci) ∧ registered pop_data (name cj) ∧
     ∃ line, line ∈ lines road_data ∧
             (parse_road line = Some (name ci, name cj) ∨
              parse_road line = Some (name cj, name ci))).
Proof.
  split.
  - intros ls1 line ls2 a b Hls Hp Hunknown.
    destruct (build_graph_total pop_data (Py.join newline (ls1 ++ ls2)))
      as (h & nodes & Hrun).
    exists h, nodes. split; [|done]. rewrite <- Hrun.
    apply road_line_dropped; [done|].
    intros st Hst. unfold road_step. rewrite Hp, Hst.
    destruct Hunknown as [Ha|Hb].
    + by rewrite (unregistered_get _ _ Ha).
    + rewrite (unregistered_get _ _ Hb). by destruct (Py.get a _).
  - intros road_data h nodes i j ci cj. rewrite build_graph_run.
    intros [= <- <-] Hi Hj Hin.
    pose proof (built_ok pop_data road_data) as Hok.
    assert (∀ k x c, Py.get k (city_map (after_population pop_data)) = Some x →
              objects (after_roads pop_data road_data) !! x = Some c →
              k = name c ∧ registered pop_data k) as Hname.
    { intros k x c Hk Hc. split.
      - rewrite <- (built_city_map pop_data road_data) in Hk.
        apply get_elem_of in Hk.
        destruct (reg_named _ Hok _ _ Hk) as (c' & Hc' & Hn). congruence.
      - apply registered_iff. by rewrite Hk. }
    rewrite <- (conns_lookup _ _ _ Hi) in Hin.
    apply built_edges in Hin as (line & Hl & a & b & x & y & Hp & Hx & Hy & Hxy).
    destruct Hxy as [[-> ->]|[-> ->]].
    + destruct (Hname _ _ _ Hx Hi) as [-> ?], (Hname _ _ _ Hy Hj) as [-> ?].
      split_and!; [done..|]. exists line. split; [done|]. by left.
    + destruct (Hname _ _ _ Hx Hj) as [-> ?], (Hname _ _ _ Hy Hi) as [-> ?].
      split_and!; [done..|]. exists line. split; [done|]. by right.
Qed.

Lemma unknown_city_road_dropped_witness :
  ∃ h nodes,
    build_graph example_population (Py.join newline ["A : B"; "Z : A"; "C : D"]%string)
    = Ok (h, nodes) ∧
    build_graph example_population (Py.join newline ["A : B"; "C : D"]%string)
    = Ok (h, nodes).
Proof.
  apply (proj1 (unknown_city_road_dropped example_population)
           ["A : B"]%string "Z : A"%string ["C : D"]%string "Z"%string "A"%string).
  - repeat constructor.
  - reflexivity.
  - left. unfold registered. by_evaluation.
Defined.




(** C10. However often a name is declared, [build_graph] returns one node
    for it, at the place of the first declaration and with the population
    of the last one; every edge of the returned graph joins returned
    nodes. *)
Theorem duplicate_declarations pop_data road_data h nodes :
  build_graph pop_data road_data = Ok (h, nodes) →
  (∀ r, r ∈ nodes → is_Some (h !! r)) ∧
  name_of h <$> nodes = first_occurrences (population_entries pop_data).*1 ∧
  NoDup (name_of h <$> nodes) ∧
  (∀ r c, r ∈ nodes → h !! r = Some c →
     last_value (name c) (population_entries pop_data) = Some (population c)) ∧
  (∀ i j, j ∈ conns h i → i ∈ nodes ∧ j ∈ nodes).
Proof.
  intros Hrun. pose proof (built_graph_ok _ _ _ _ Hrun) as Hg.
  rewrite build_graph_run in Hrun. injection Hrun as <- <-.
  pose proof (built_ok pop_data road_data) as Hok.
  destruct (registry_entries (population_entries pop_data)) as [Hkeys Hvals].
  rewrite <- after_population_entries in Hkeys, Hvals.
  assert (name_of (objects (after_roads pop_data road_data))
            <$> Py.values (city_map (after_roads pop_data road_data))
          = first_occurrences (population_entries pop_data).*1) as Hnames.
  { rewrite names_of_values.
    - by rewrite built_city_map.
    - intros k v Hin. destruct (reg_named _ Hok _ _ Hin) as (c & Hc & Hn).
      unfold name_of. by rewrite Hc. }
  split_and!.
  - intros r Hr. apply lookup_lt_is_Some_2. by eapply g_valid.
  - done.
  - rewrite Hnames. apply first_occurrences_NoDup.
  - intros r c Hr Hc.
    apply list_elem_of_fmap in Hr as [[k v] [-> Hin]]. simpl in *.
    rewrite built_city_map in Hin.
    destruct (Hvals _ _ Hin) as (c0 & Hc0 & Hn & Hlast).
    pose proof (roads_attrs (lines road_data) (after_population pop_data) v) as Ha.
    fold (after_roads pop_data road_data) in Ha.
    rewrite Hc, Hc0 in Ha. simpl in Ha. inversion Ha as [[Hn' Hp' Hv']].
    rewrite Hn', Hp', Hn. done.
  - apply Hg.
Qed.

Lemma duplicate_declarations_witness :
  ∃ h nodes,
    build_graph (Py.join newline ["A : 1"; "B : 2"; "A : 3"]%string) "A : B"
    = Ok (h, nodes) ∧
    name_of h <$> nodes = ["A"; "B"]%string ∧
    (∀ r c, r ∈ nodes → h !! r = Some c →
       last_value (name c) [("A", 1); ("B", 2); ("A", 3)]%string
       = Some (population c)).
Proof.
  eexists _, _. split; [vm_compute; reflexivity|].
  destruct (duplicate_declarations
              (Py.join newline ["A : 1"; "B : 2"; "A : 3"]%string) "A : B"%string
              [mkCity "A" 1 [] false; mkCity "B" 2 [2%nat] false;
               mkCity "A" 3 [1%nat] false] [2%nat; 1%nat])
    as (_ & Hnames & _ & Hlast & _).
  - vm_compute. reflexivity.
  - split; [exact Hnames | exact Hlast].
Defined.

(** * Further properties *)

Lemma built_after pop_data road_data (h h' : heap) nodes :
  built pop_data road_data h nodes → unmarked h' = unmarked h →
  built pop_data road_data h' nodes.
Proof. intros (h0 & Hb & Hu) Hu'. exists h0. split; [done | congruence]. Qed.

(** X1. [number_of_islands] returns the number of connected components:
    one node can be picked out of each component, and however it is done
    the count is the number of nodes picked. *)
Theorem number_of_islands_components pop_data road_data h nodes fuel :
  built pop_data road_data h nodes → (length h ≤ fuel)%nat →
  ∃ h' n,
    number_of_islands fuel nodes h = Some (h', n) ∧
    (∃ reps, representatives h nodes reps) ∧
    ∀ reps, representatives h nodes reps → n = Z.of_nat (length reps).
Proof.
  intros Hb%built_ok_graph Hfuel.
  destruct (island_operations h nodes fuel Hb Hfuel)
    as (h' & pops & reps & _ & Hn & Hreps & _ & Hsum).
  exists h', (Z.of_nat (length pops)). split_and!; [done|by exists reps|].
  intros reps' Hreps'. f_equal.
  rewrite <- (Forall2_length _ _ _ Hsum). by eapply representatives_length.
Qed.

Lemma number_of_islands_components_witness :
  ∃ h' n,
    number_of_islands 5 example_nodes example_heap = Some (h', n) ∧
    (∃ reps, representatives example_heap example_nodes reps) ∧
    ∀ reps, representatives example_heap example_nodes reps →
            n = Z.of_nat (length reps).
Proof.
  apply (number_of_islands_components example_population example_roads).
  - exact example_built.
  - vm_compute. lia.
Defined.

(** X2. [island_populations] returns, island by island, the total
    population of the island, the islands being taken in the order in which
    the list of cities first meets them: the entries are the populations
    of the components of the cities that no earlier city of the list is
    connected to, in the order of the list, and no other list of numbers
    fits this description. *)
Theorem island_populations_components pop_data road_data h nodes fuel :
  built pop_data road_data h nodes → (length h ≤ fuel)%nat →
  ∃ h' populations reps,
    island_populations fuel nodes h = Some (h', populations) ∧
    representatives h nodes reps ∧ reps `sublist_of` nodes ∧
    first_cities h nodes reps ∧
    Forall2 (component_sum h nodes) reps populations ∧
    ∀ reps' populations',
      reps' `sublist_of` nodes → first_cities h nodes reps' →
      Forall2 (component_sum h nodes) reps' populations' →
      populations' = populations.
Proof.
  intros Hb%built_ok_graph Hfuel.
  destruct (island_operations_first h nodes fuel Hb Hfuel)
    as (h' & pops & reps & Hp & _ & Hreps & Hsub & Hsum & Hfst).
  exists h', pops, reps. split_and!; [done..|].
  intros reps' pops' Hsub' Hfst' Hsum'.
  pose proof (g_nodup _ _ Hb) as Hnd.
  assert (reps' = reps) as -> by (by apply (first_cities_unique h nodes)).
  by apply (component_sums_unique h nodes reps).
Qed.

Lemma island_populations_components_witness :
  ∃ h' populations reps,
    island_populations 5 example_nodes example_heap = Some (h', populations) ∧
    representatives example_heap example_nodes reps ∧
    reps `sublist_of` example_nodes ∧
    first_cities example_heap example_nodes reps ∧
    Forall2 (component_sum example_heap example_nodes) reps populations ∧
    ∀ reps' populations',
      reps' `sublist_of` example_nodes →
      first_cities example_heap example_nodes reps' →
      Forall2 (component_sum example_heap example_nodes) reps' populations' →
      populations' = populations.
Proof.
  apply (island_populations_components example_population example_roads).
  - exact example_built.
  - vm_compute. lia.
Defined.

(** X3. Called on a city not marked yet, in a graph whose marked cities
    have all their connections marked, [_depth_first_search] marks the
    cities reachable from it and no other, changes nothing else, and
    returns the total population of those cities. *)
Theorem depth_first_search_component pop_data road_data h nodes fuel start_city :
  built pop_data road_data h nodes → (length h ≤ fuel)%nat →
  closed_marks h nodes → start_city ∈ nodes → is_visited h start_city = false →
  ∃ h' total,
    _depth_first_search fuel start_city h = Some (h', total) ∧
    unmarked h' = unmarked h ∧
    (∀ v, is_visited h' v = true
          ↔ is_visited h v = true ∨ reachable h start_city v) ∧
    component_sum h nodes start_city total.
Proof.
  intros Hb%built_ok_graph Hfuel Hcl Hstart Hv.
  destruct (depth_first_search_island h nodes fuel start_city)
    as (h' & total & Hrun & Hm & _ & Hvis & Hsum); [done..|].
  exists h', total. split_and!; [done| |done..].
  apply same_unmarked, Hm.
Qed.

Lemma depth_first_search_component_witness :
  ∃ h' total,
    _depth_first_search 5 1 example_heap = Some (h', total) ∧
    unmarked h' = unmarked example_heap ∧
    (∀ v, is_visited h' v = true
          ↔ is_visited example_heap v = true ∨ reachable example_heap 1 v) ∧
    component_sum example_heap example_nodes 1 total.
Proof.
  apply (depth_first_search_component example_population example_roads).
  - exact example_built.
  - vm_compute. lia.
  - by_evaluation.
  - by_evaluation.
  - reflexivity.
Defined.

(** X4. [number_of_islands] returns the length of the list that
    [island_populations] returns, and both leave the same store. *)
Theorem islands_count_matches_list pop_data road_data h nodes fuel :
  built pop_data road_data h nodes → (length h ≤ fuel)%nat →
  ∃ h' populations,
    island_populations fuel nodes h = Some (h', populations) ∧
    number_of_islands fuel nodes h = Some (h', Z.of_nat (length populations)).
Proof.
  intros Hb%built_ok_graph Hfuel.
  destruct (island_operations h nodes fuel Hb Hfuel)
    as (h' & pops & reps & Hp & Hn & _).
  by exists h', pops.
Qed.

Lemma islands_count_matches_list_witness :
  ∃ h' populations,
    island_populations 5 example_nodes example_heap = Some (h', populations) ∧
    number_of_islands 5 example_nodes example_heap
    = Some (h', Z.of_nat (length populations)).
Proof.
  apply (islands_count_matches_list example_population example_roads).
  - exact example_built.
  - vm_compute. lia.
Defined.

(** X5. The operations can be run one after the other, as the main program
    does: after [number_of_islands] and then [island_populations], each of
    the three operations returns what it returns on the graph as built. *)
Theorem traversals_in_sequence pop_data road_data h nodes fuel :
  built pop_data road_data h nodes → (length h ≤ fuel)%nat →
  ∃ h1 n h2 populations,
    number_of_islands fuel nodes h = Some (h1, n) ∧
    island_populations fuel nodes h1 = Some (h2, populations) ∧
    snd <$> island_populations fuel nodes h = Some populations ∧
    snd <$> number_of_islands fuel nodes h2 = Some n ∧
    snd <$> island_populations fuel nodes h2 = Some populations ∧
    ∀ a b, min_highways fuel h2 a b = min_highways fuel h a b.
Proof.
  intros Hb Hfuel. pose proof (built_ok_graph _ _ _ _ Hb) as Hok.
  assert (∀ i j, j ∈ conns h i → j ∈ nodes) as Hclosed.
  { intros i j Hj. by destruct (g_closed _ _ Hok _ _ Hj). }
  destruct (island_operations h nodes fuel Hok Hfuel)
    as (h1 & pops & _ & Hp & Hn & _).
  assert (unmarked h1 = unmarked h) as Hu1.
  { unfold island_populations in Hp.
    destruct (populations_loop_spec nodes fuel nodes (reset_all nodes h) [])
      as (h1' & pops' & Hrun & Hm & _); [by eapply same_graph_ok, Hok; apply reset_all_same| |done|].
    { by rewrite (proj1 (reset_all_same nodes h)). }
    rewrite Hrun in Hp. simplify_eq. apply same_unmarked.
    eapply same_graph_trans; [apply reset_all_same | apply Hm]. }
  destruct (islands_fresh nodes fuel h h1 Hclosed Hu1) as [Hi1 Hp1].
  rewrite Hp in Hp1. simpl in Hp1.
  destruct (island_populations fuel nodes h1) as [[h2 pops2]|] eqn:Hp2; [|done].
  simpl in Hp1. simplify_eq.
  assert (unmarked h2 = unmarked h) as Hu2.
  { rewrite <- Hu1. unfold island_populations in Hp2.
    assert (graph_ok h1 nodes) as Hok1
      by (eapply same_graph_ok; [by apply unmarked_same | done]).
    destruct (populations_loop_spec nodes fuel nodes (reset_all nodes h1) [])
      as (h2' & pops' & Hrun & Hm & _); [by eapply same_graph_ok, Hok1; apply reset_all_same| |done|].
    { rewrite (proj1 (reset_all_same nodes h1)).
      by rewrite (proj1 (unmarked_same _ _ Hu1)). }
    rewrite Hrun in Hp2. simplify_eq. apply same_unmarked.
    eapply same_graph_trans; [apply reset_all_same | apply Hm]. }
  destruct (islands_fresh nodes fuel h h2 Hclosed Hu2) as [Hi2 Hp2'].
  exists h1, (Z.of_nat (length pops)), h2, pops.
  rewrite Hi2, Hp2', Hn, Hp. split_and!; [done..|].
  intros a b. by apply min_highways_conns, unmarked_same.
Qed.

Lemma traversals_in_sequence_witness :
  ∃ h1 n h2 populations,
    number_of_islands 5 example_nodes example_heap = Some (h1, n) ∧
    island_populations 5 example_nodes h1 = Some (h2, populations) ∧
    snd <$> island_populations 5 example_nodes example_heap = Some populations ∧
    snd <$> number_of_islands 5 example_nodes h2 = Some n ∧
    snd <$> island_populations 5 example_nodes h2 = Some populations ∧
    ∀ a b, min_highways 5 h2 a b = min_highways 5 example_heap a b.
Proof.
  apply (traversals_in_sequence example_population example_roads).
  - exact example_built.
  - vm_compute. lia.
Defined.

(** X6. [min_highways] returns 1 exactly for two different cities joined
    by a highway. *)
Theorem min_highways_adjacent pop_data road_data h nodes a b fuel :
  built pop_data road_data h nodes →
  a ∈ nodes → b ∈ nodes → (length h ≤ fuel)%nat →
  min_highways fuel h a b = Some 1 ↔ a ≠ b ∧ b ∈ conns h a.
Proof.
  intros Hb%built_ok_graph Ha Hbn Hfuel.
  destruct (min_highways_spec fuel h nodes a b Hb Ha Hbn Hfuel) as (r & Hr & Hans).
  rewrite Hr. split.
  - intros [= ->]. destruct Hans as [(k & Hk & Hw & _)|[? _]]; [|lia].
    assert (k = 1%nat) as -> by lia.
    apply walk_last in Hw as (w & ->%walk_zero & Hin). split; [|done].
    intros ->. unfold min_highways in Hr. by rewrite decide_True in Hr.
  - intros [Hne Hin].
    assert (walk h a 1 b) as Hw by (eapply walk_step; [apply walk_here | done]).
    destruct Hans as [(k & -> & Hk & Hmin)|[_ Hno]].
    + specialize (Hmin _ Hw). destruct k as [|[|k]]; [|done|lia].
      by apply walk_zero in Hk.
    + exfalso. apply Hno. by exists 1%nat.
Qed.

Lemma min_highways_adjacent_witness :
  min_highways 5 example_heap 1 2 = Some 1 ↔ 1%nat ≠ 2%nat ∧ 2%nat ∈ conns example_heap 1.
Proof.
  apply (min_highways_adjacent example_population example_roads
           example_heap example_nodes 1 2 5).
  - exact example_built.
  - by_evaluation.
  - by_evaluation.
  - vm_compute. lia.
Defined.

(** X7. Distances add up: where [min_highways] finds a way from [a] to [b]
    and from [b] to [c], it finds one from [a] to [c] that is no longer
    than the two together. *)
Theorem min_highways_triangle pop_data road_data h nodes a b c fuel x y :
  built pop_data road_data h nodes →
  a ∈ nodes → b ∈ nodes → c ∈ nodes → (length h ≤ fuel)%nat →
  min_highways fuel h a b = Some x → 0 ≤ x →
  min_highways fuel h b c = Some y → 0 ≤ y →
  ∃ z, min_highways fuel h a c = Some z ∧ 0 ≤ z ≤ x + y.
Proof.
  intros Hb%built_ok_graph Ha Hbn Hc Hfuel Hx Hx0 Hy Hy0.
  destruct (min_highways_spec fuel h nodes a b Hb Ha Hbn Hfuel) as (x' & Hx' & Hab).
  destruct (min_highways_spec fuel h nodes b c Hb Hbn Hc Hfuel) as (y' & Hy' & Hbc).
  destruct (min_highways_spec fuel h nodes a c Hb Ha Hc Hfuel) as (z & Hz & Hac).
  simplify_eq.
  destruct Hab as [(k & -> & Hk & _)|[? _]]; [|lia].
  destruct Hbc as [(m & -> & Hm & _)|[? _]]; [|lia].
  exists z. split; [done|].
  pose proof (walk_app _ _ _ _ _ _ Hk Hm) as Hw.
  destruct Hac as [(n & -> & _ & Hmin)|[_ Hno]].
  - specialize (Hmin _ Hw). lia.
  - exfalso. apply Hno. by exists (k + m)%nat.
Qed.

Lemma min_highways_triangle_witness :
  ∃ z, min_highways 5 example_heap 0 3 = Some z ∧ 0 ≤ z ≤ 1 + 2.
Proof.
  apply (min_highways_triangle example_population example_roads
           example_heap example_nodes 0 1 3 5 1 2).
  - exact example_built.
  - by_evaluation.
  - by_evaluation.
  - by_evaluation.
  - vm_compute. lia.
  - vm_compute. reflexivity.
  - lia.
  - vm_compute. reflexivity.
  - lia.
Defined.

(** X8. [min_highways] returns -1 or a number of highways below the number
    of cities. *)
Theorem min_highways_range pop_data road_data h nodes a b fuel :
  built pop_data road_data h nodes →
  a ∈ nodes → b ∈ nodes → (length h ≤ fuel)%nat →
  ∃ r, min_highways fuel h a b = Some r ∧ -1 ≤ r < Z.of_nat (length nodes).
Proof.
  intros Hb%built_ok_graph Ha Hbn Hfuel.
  destruct (min_highways_spec fuel h nodes a b Hb Ha Hbn Hfuel) as (r & Hr & Hans).
  exists r. split; [done|].
  destruct Hans as [(k & -> & Hk)|[-> _]]; [|lia].
  pose proof (shortest_bound h nodes Hb a b k Ha Hk). lia.
Qed.

Lemma min_highways_range_witness :
  ∃ r, min_highways 5 example_heap 0 3 = Some r ∧
       -1 ≤ r < Z.of_nat (length example_nodes).
Proof.
  apply (min_highways_range example_population example_roads
           example_heap example_nodes 0 3 5).
  - exact example_built.
  - by_evaluation.
  - by_evaluation.
  - vm_compute. lia.
Defined.

(** X9. A graph with at least one city is a single island exactly when
    [min_highways] finds a way between any two of its cities. *)
Theorem one_island_iff_connected pop_data road_data h nodes fuel :
  built pop_data road_data h nodes → (length h ≤ fuel)%nat → nodes ≠ [] →
  ∃ h' n,
    number_of_islands fuel nodes h = Some (h', n) ∧
    (n = 1 ↔ ∀ a b, a ∈ nodes → b ∈ nodes →
                    ∃ r, min_highways fuel h a b = Some r ∧ 0 ≤ r).
Proof.
  intros Hb%built_ok_graph Hfuel Hne.
  destruct (island_operations h nodes fuel Hb Hfuel)
    as (h' & pops & reps & _ & Hn & (Hnd & Hin & Hcov & Hsep) & _ & Hsum).
  rewrite <- (Forall2_length _ _ _ Hsum) in Hn.
  exists h', (Z.of_nat (length reps)). split; [done|].
  assert (∀ a b, a ∈ nodes → b ∈ nodes →
            reachable h a b ↔ ∃ r, min_highways fuel h a b = Some r ∧ 0 ≤ r) as Hmin.
  { intros a b Ha Hbn.
    destruct (min_highways_spec fuel h nodes a b Hb Ha Hbn Hfuel) as (r & Hr & Hans).
    rewrite Hr. split.
    - intros Hreach. exists r. split; [done|].
      destruct Hans as [(k & -> & _)|[_ Hno]]; [lia|done].
    - intros (r' & [= <-] & Hr0).
      destruct Hans as [(k & -> & Hk & _)|[? _]]; [by exists k|lia]. }
  split.
  - intros Hone a b Ha Hbn. apply Hmin; [done..|].
    destruct reps as [|r [|? ?]]; simpl in Hone; try lia.
    destruct (Hcov a Ha) as (ra & ->%list_elem_of_singleton & Hra).
    destruct (Hcov b Hbn) as (rb & ->%list_elem_of_singleton & Hrb).
    eapply reachable_trans; [|done]. by eapply reachable_sym.
  - intros Hall. destruct reps as [|r [|r' reps]]; [|done|].
    + destruct nodes as [|v nodes]; [done|].
      destruct (Hcov v ltac:(left)) as (r & ?%elem_of_nil & _). done.
    + exfalso. apply NoDup_cons in Hnd as [Hr _]. apply Hr.
      assert (r = r') as ->; [|left].
      apply Hsep; [left|right; left|].
      apply Hmin; [apply Hin; left | apply Hin; right; left|].
      apply Hall; apply Hin; [left | right; left].
Qed.

Lemma one_island_iff_connected_witness :
  ∃ h' n,
    number_of_islands 5 example_nodes example_heap = Some (h', n) ∧
    (n = 1 ↔ ∀ a b, a ∈ example_nodes → b ∈ example_nodes →
                    ∃ r, min_highways 5 example_heap a b = Some r ∧ 0 ≤ r).
Proof.
  apply (one_island_iff_connected example_population example_roads).
  - exact example_built.
  - vm_compute. lia.
  - done.
Defined.

(** X10. [number_of_islands] returns 0 for the empty list of cities and
    for no other. *)
Theorem number_of_islands_zero pop_data road_data h nodes fuel :
  built pop_data road_data h nodes → (length h ≤ fuel)%nat →
  ∃ h' n, number_of_islands fuel nodes h = Some (h', n) ∧ 0 ≤ n ∧
          (n = 0 ↔ nodes = []).
Proof.
  intros Hb%built_ok_graph Hfuel.
  destruct (island_operations h nodes fuel Hb Hfuel)
    as (h' & pops & reps & _ & Hn & (Hnd & Hin & Hcov & Hsep) & _ & Hsum).
  rewrite <- (Forall2_length _ _ _ Hsum) in Hn.
  exists h', (Z.of_nat (length reps)). split_and!; [done|lia|]. split.
  - intros Hz. destruct reps; [|simpl in Hz; lia].
    destruct nodes as [|v nodes]; [done|].
    destruct (Hcov v ltac:(left)) as (r & ?%elem_of_nil & _). done.
  - intros ->. destruct reps as [|r reps]; [done|].
    pose proof (Hin r ltac:(left)) as Hr. by apply elem_of_nil in Hr.
Qed.

Lemma number_of_islands_zero_witness :
  ∃ h' n, number_of_islands 5 example_nodes example_heap = Some (h', n) ∧ 0 ≤ n ∧
          (n = 0 ↔ example_nodes = []).
Proof.
  apply (number_of_islands_zero example_population example_roads).
  - exact example_built.
  - vm_compute. lia.
Defined.

(** X11. The order in which the cities are handed to [number_of_islands]
    does not change the count. *)
Theorem number_of_islands_order pop_data road_data h nodes nodes' fuel :
  built pop_data road_data h nodes → nodes' ≡ₚ nodes → (length h ≤ fuel)%nat →
  ∃ h1 h2 n,
    number_of_islands fuel nodes h = Some (h1, n) ∧
    number_of_islands fuel nodes' h = Some (h2, n).
Proof.
  intros Hb%built_ok_graph Hperm Hfuel.
  assert (graph_ok h nodes') as Hb'.
  { destruct Hb as [H1 H2 H3 H4]. split.
    - by rewrite Hperm.
    - intros r Hr. apply H2. by rewrite <- Hperm.
    - intros i j Hj. rewrite Hperm. by apply H3.
    - done. }
  destruct (island_operations h nodes fuel Hb Hfuel)
    as (h1 & pops & reps & _ & Hn & Hreps & _ & Hsum).
  destruct (island_operations h nodes' fuel Hb' Hfuel)
    as (h2 & pops' & reps' & _ & Hn' & Hreps' & _ & Hsum').
  exists h1, h2, (Z.of_nat (length pops)). split; [done|].
  rewrite Hn'. do 3 f_equal.
  rewrite <- (Forall2_length _ _ _ Hsum), <- (Forall2_length _ _ _ Hsum').
  eapply (representatives_length h nodes); [done| |done].
  destruct Hreps' as (Hnd & Hin & Hcov & Hsep). split_and!; [done| | |done].
  - intros r Hr. rewrite <- Hperm. by apply Hin.
  - intros v Hv. apply Hcov. by rewrite Hperm.
Qed.

Lemma number_of_islands_order_witness :
  ∃ h1 h2 n,
    number_of_islands 5 example_nodes example_heap = Some (h1, n) ∧
    number_of_islands 5 [4; 2; 0; 3; 1]%nat example_heap = Some (h2, n).
Proof.
  apply (number_of_islands_order example_population example_roads).
  - exact example_built.
  - by_evaluation.
  - vm_compute. lia.
Defined.

(** X12. No city of the graph returned by [build_graph] lists the same
    neighbour twice. *)
Theorem connections_nodup pop_data road_data h nodes i c :
  build_graph pop_data road_data = Ok (h, nodes) →
  h !! i = Some c → NoDup (connections c).
Proof.
  rewrite build_graph_run. intros [= <- <-]. unfold after_roads.
  apply roads_NoDup. intros j cj Hj.
  pose proof (proj2 (after_population_ok pop_data) j) as Hno.
  rewrite (conns_lookup _ _ _ Hj) in Hno. rewrite Hno. apply NoDup_nil_2.
Qed.

Lemma connections_nodup_witness :
  NoDup (connections (mkCity "B" 20 [0%nat; 2%nat] false)).
Proof.
  apply (connections_nodup example_population example_roads
           example_heap example_nodes 1).
  - vm_compute. reflexivity.
  - reflexivity.
Defined.

(** X13. A road line that names again, in either order, the two cities of
    an earlier road line changes nothing. *)
Theorem repeated_road_ignored pop_data ls1 line ls2 line' ls3 a b :
  Forall single_line (ls1 ++ line :: ls2 ++ line' :: ls3) →
  parse_road line = Some (a, b) →
  parse_road line' = Some (a, b) ∨ parse_road line' = Some (b, a) →
  ∃ h nodes,
    build_graph pop_data (Py.join newline (ls1 ++ line :: ls2 ++ line' :: ls3))
    = Ok (h, nodes) ∧
    build_graph pop_data (Py.join newline (ls1 ++ line :: ls2 ++ ls3))
    = Ok (h, nodes).
Proof.
  intros Hls Hl Hl'.
  destruct (build_graph_total pop_data (Py.join newline (ls1 ++ line :: ls2 ++ ls3)))
    as (h & nodes & Hrun).
  exists h, nodes. split; [|done]. rewrite <- Hrun. rewrite !build_graph_run.
  assert (ls1 ++ line :: ls2 ++ line' :: ls3 = (ls1 ++ line :: ls2) ++ line' :: ls3)
    as Hassoc by (by rewrite <- app_assoc).
  assert (ls1 ++ line :: ls2 ++ ls3 = (ls1 ++ line :: ls2) ++ ls3)
    as Hassoc' by (by rewrite <- app_assoc).
  rewrite Hassoc in Hls |- *. rewrite Hassoc'.
  rewrite !after_roads_join by eauto using Forall_drop.
  rewrite fold_drop; [done|].
  set (st0 := after_population pop_data).
  set (st := foldl road_step st0 (ls1 ++ line :: ls2)).
  destruct (after_population_ok pop_data) as [Hok0 _]. fold st0 in Hok0.
  assert (city_map st = city_map st0) as Hmap by apply roads_city_map.
  assert (∀ line'', (parse_road line'' = Some (a, b) ∨ parse_road line'' = Some (b, a)) →
            road_step st line'' = st) as Hagain.
  { intros line'' Hp. unfold road_step at 1.
    destruct (Py.get a (city_map st)) as [x|] eqn:Ha;
      [destruct (Py.get b (city_map st)) as [y|] eqn:Hb|].
    - assert (y ∈ conns (objects st) x ∧ x ∈ conns (objects st) y) as [Hxy Hyx].
      { unfold st. rewrite !roads_conns by done. rewrite Hmap in Ha, Hb.
        split; right; exists line; (split; [apply elem_of_app; right; left|]);
          exists a, b, x, y; split_and!; auto. }
      destruct Hp as [-> | ->]; rewrite ?Ha, ?Hb; [by apply connect_id|].
      rewrite connect_comm. by apply connect_id.
    - destruct Hp as [-> | ->]; by rewrite ?Ha, ?Hb.
    - destruct Hp as [-> | ->]; rewrite ?Ha; [done|].
      by destruct (Py.get b (city_map st)). }
  by apply Hagain.
Qed.

Lemma repeated_road_ignored_witness :
  ∃ h nodes,
    build_graph example_population
      (Py.join newline ["A : B"; "B : C"; "B : A"; "C : D"]%string) = Ok (h, nodes) ∧
    build_graph example_population
      (Py.join newline ["A : B"; "B : C"; "C : D"]%string) = Ok (h, nodes).
Proof.
  apply (repeated_road_ignored example_population
           [] "A : B"%string ["B : C"]%string "B : A"%string ["C : D"]%string
           "A"%string "B"%string).
  - repeat constructor.
  - reflexivity.
  - right. reflexivity.
Defined.

(** X14. The order of the two names on a road line is immaterial. *)
Theorem road_names_swap pop_data ls1 line line' ls2 a b :
  Forall single_line (ls1 ++ line :: ls2) → single_line line' →
  parse_road line = Some (a, b) → parse_road line' = Some (b, a) →
  ∃ h nodes,
    build_graph pop_data (Py.join newline (ls1 ++ line :: ls2)) = Ok (h, nodes) ∧
    build_graph pop_data (Py.join newline (ls1 ++ line' :: ls2)) = Ok (h, nodes).
Proof.
  intros Hls Hl' Hp Hp'.
  destruct (build_graph_total pop_data (Py.join newline (ls1 ++ line :: ls2)))
    as (h & nodes & Hrun).
  exists h, nodes. split; [done|]. rewrite <- Hrun. rewrite !build_graph_run.
  assert (Forall single_line (ls1 ++ line' :: ls2)) as Hls'.
  { rewrite Forall_app, Forall_cons in Hls |- *. tauto. }
  rewrite !after_roads_join by done.
  rewrite !foldl_app. simpl. by rewrite (road_step_swap _ line line' a b).
Qed.

Lemma road_names_swap_witness :
  ∃ h nodes,
    build_graph example_population
      (Py.join newline ["A : B"; "B : C"; "C : D"]%string) = Ok (h, nodes) ∧
    build_graph example_population
      (Py.join newline ["A : B"; "C : B"; "C : D"]%string) = Ok (h, nodes).
Proof.
  apply (road_names_swap example_population
           ["A : B"]%string "B : C"%string "C : B"%string ["C : D"]%string
           "B"%string "C"%string).
  - repeat constructor.
  - reflexivity.
  - reflexivity.
  - reflexivity.
Defined.

(** X15. Without a well-formed population line the graph is empty,
    whatever the road data. *)
Theorem no_population_empty_graph pop_data road_data :
  (∀ line, line ∈ lines pop_data → parse_population line = None) →
  build_graph pop_data road_data = Ok ([], []).
Proof.
  intros Hnone. rewrite build_graph_run. unfold after_roads, after_population.
  rewrite population_none by done. by rewrite roads_unregistered.
Qed.

Lemma no_population_empty_graph_witness :
  build_graph (Py.join newline ["A 5"; ""; "B : many"]%string) "A : B" = Ok ([], []).
Proof.
  apply no_population_empty_graph.
  intros line Hin. vm_compute in Hin.
  repeat (apply elem_of_cons in Hin as [->|Hin]; [reflexivity|]).
  by apply elem_of_nil in Hin.
Defined.

(** X16. A road line that names two registered cities joins them: each is
    in the connections of the other. *)
Theorem registered_road_connects pop_data road_data h nodes line a b :
  build_graph pop_data road_data = Ok (h, nodes) →
  line ∈ lines road_data → parse_road line = Some (a, b) →
  registered pop_data a → registered pop_data b →
  ∃ i j ci cj,
    i ∈ nodes ∧ j ∈ nodes ∧ h !! i = Some ci ∧ h !! j = Some cj ∧
    name ci = a ∧ name cj = b ∧ j ∈ connections ci ∧ i ∈ connections cj.
Proof.
  rewrite build_graph_run. intros [= <- <-] Hl Hp Ha Hb.
  pose proof (built_ok pop_data road_data) as Hok.
  apply registered_iff in Ha as [i Hi]. apply registered_iff in Hb as [j Hj].
  assert (∀ k x, Py.get k (city_map (after_population pop_data)) = Some x →
            x ∈ Py.values (city_map (after_roads pop_data road_data)) ∧
            ∃ c, objects (after_roads pop_data road_data) !! x = Some c ∧ name c = k)
    as Hnode.
  { intros k x Hk. rewrite <- (built_city_map pop_data road_data) in Hk.
    split; [by eapply get_value|]. apply get_elem_of in Hk.
    by apply (reg_named _ Hok). }
  destruct (Hnode _ _ Hi) as (Hin & ci & Hci & Hni).
  destruct (Hnode _ _ Hj) as (Hjn & cj & Hcj & Hnj).
  exists i, j, ci, cj. split_and!; [done..| |].
  - rewrite <- (conns_lookup _ _ _ Hci). apply built_edges.
    exists line. split; [done|]. exists a, b, i, j. split_and!; auto.
  - rewrite <- (conns_lookup _ _ _ Hcj). apply built_edges.
    exists line. split; [done|]. exists a, b, i, j. split_and!; auto.
Qed.

Lemma registered_road_connects_witness :
  ∃ i j ci cj,
    i ∈ example_nodes ∧ j ∈ example_nodes ∧
    example_heap !! i = Some ci ∧ example_heap !! j = Some cj ∧
    name ci = "B"%string ∧ name cj = "C"%string ∧
    j ∈ connections ci ∧ i ∈ connections cj.
Proof.
  apply (registered_road_connects example_population example_roads
           example_heap example_nodes "B : C"%string).
  - vm_compute. reflexivity.
  - by_evaluation.
  - reflexivity.
  - unfold registered. by_evaluation.
  - unfold registered. by_evaluation.
Defined.
